(** * A shallow embedding of parts of the nvFuser scheduling and lowering code

    The development follows the C++ sources:
    - [csrc/utils.h]: [ceilDiv], [wrapDim], [KernelIndexTypeCompute];
    - [csrc/scheduler/registry.cpp]: [SchedulerRuntimeInfo] (input pointers,
      discontiguous strides, alignment), [checkCanSchedule], [canSchedule],
      [proposeHeuristics];
    - the pointwise scheduler: [DomainMap::findReferenceTensorView] and the
      break-point search of [getPointwiseHeuristics];
    - the lowering utilities: [getAllocInformation];
    - the allocation pass: [AllocationInserter::fillAllocationInformation];
    - the IR utilities: [getTv], [getTvs], [getTvOutput], [getTvInput],
      [getMaybeWarpReductionDim], [getParallelDomains].

    64-bit signed integers ([int64_t]) are values of [Z] and their arithmetic
    wraps around ([wrap64]); [size_t] values are values of [N].  Exceptions
    ([NVF_ERROR], [NVF_CHECK]) are [None].

    The first part of the file holds the embedding, the second part the
    properties proved about it. *)

From Stdlib Require Import ZArith List Bool Lia.
From stdpp Require Import base option list gmap.

Local Open Scope Z_scope.

(* ===================================================================== *)
(** * Part I: the embedding                                               *)
(* ===================================================================== *)

(** ** csrc/utils.h *)
Module Utils.

(** Two's complement wrap-around of a 64-bit signed value. *)
Definition wrap64 (z : Z) : Z := (z + 2 ^ 63) mod 2 ^ 64 - 2 ^ 63.

(** Arithmetic of [int64_t]; C++ [/] truncates towards zero ([Z.quot]). *)
Definition add64 (a b : Z) : Z := wrap64 (a + b).
Definition sub64 (a b : Z) : Z := wrap64 (a - b).
Definition mul64 (a b : Z) : Z := wrap64 (a * b).
Definition div64 (a b : Z) : Z := wrap64 (a ÷ b).

(** [std::numeric_limits<int64_t>::max()] *)
Definition int64_max : Z := 2 ^ 63 - 1.

Definition ceilDiv (dividend divisor : Z) : Z :=
  div64 (sub64 (add64 dividend divisor) 1) divisor.

(** [wrapDim]: negative positions count from the end; [NVF_CHECK] fails
    outside [0, ndim). *)
Definition wrapDim (dim ndim : Z) : option Z :=
  let dim := if dim <? 0 then dim + ndim else dim in
  if (0 <=? dim) && (dim <? ndim) then Some dim else None.

(** The two index types a kernel may use: [PrimDataType::Int] is the 64-bit
    one, [PrimDataType::Int32] the 32-bit one. *)
Inductive PrimDataType : Type :=
  | Int
  | Int32.

(** [std::numeric_limits<int>::max()] *)
Definition int_max : Z := 2 ^ 31 - 1.

(** [class KernelIndexTypeCompute]. *)
Record KernelIndexTypeCompute : Type := mkKernelIndexTypeCompute {
  tensor_most_positive_index_ : Z
}.

(** "Save 1 more bit besides the sign bit to be conservative". *)
Definition most_positive_int32_index : Z := int_max ÷ 2.

(** The default member initializer [tensor_most_positive_index_ = 0]. *)
Definition newKernelIndexTypeCompute : KernelIndexTypeCompute :=
  mkKernelIndexTypeCompute 0.

Definition getType (k : KernelIndexTypeCompute) : PrimDataType :=
  if tensor_most_positive_index_ k >? most_positive_int32_index
  then Int else Int32.

(** [addDim]: updates the counter and returns the currently required type;
    a negative stride on a dimension of size above one is an error. *)
Definition addDim (k : KernelIndexTypeCompute) (size stride : Z)
  : option (KernelIndexTypeCompute * PrimDataType) :=
  if size >? 1 then
    if stride >=? 0 then
      let k' :=
        if stride >? 0
        then mkKernelIndexTypeCompute
               (add64 (tensor_most_positive_index_ k)
                      (mul64 (sub64 size 1) stride))
        else k in
      Some (k', getType k')
    else None
  else Some (k, getType k).

(** Feeding the dimensions of one tensor, in order. *)
Fixpoint addDims (k : KernelIndexTypeCompute) (dims : list (Z * Z))
  : option (KernelIndexTypeCompute * PrimDataType) :=
  match dims with
  | [] => Some (k, getType k)
  | (size, stride) :: rest =>
      match addDim k size stride with
      | Some (k', _) => addDims k' rest
      | None => None
      end
  end.

(** *** Further utilities of [csrc/utils.h] *)

Definition roundUpToMultiple (dividend divisor : Z) : Z :=
  mul64 (ceilDiv dividend divisor) divisor.

(** Wrap-around of [unsigned int] (32 bits) and of [size_t] (64 bits). *)
Definition wrap_u32 (n : N) : N := (n mod 2 ^ 32)%N.
Definition wrap_u64 (n : N) : N := (n mod 2 ^ 64)%N.

(** [switch_pair]: the two enumerators are given by their values as
    [unsigned int]. *)
Definition switch_pair (t1 t2 : N) : N :=
  wrap_u32 (wrap_u32 (N.shiftl t1 16) + t2).

(** [hashCombine]; the returned value is the new content of [hash]. *)
Definition hashCombine (hash new_hash : N) : N :=
  N.lxor hash
    (wrap_u64
       (wrap_u64 (wrap_u64 (new_hash + 0x9e3779b9)
                  + wrap_u64 (N.shiftl hash 6))
        + N.shiftr hash 2)).

(** The [while (b)] loop of [pow<T>] at [T = int64_t]; [None] when the fuel
    runs out. *)
Fixpoint pow_loop (fuel : nat) (a b result : Z) : option Z :=
  if b =? 0 then Some result
  else match fuel with
       | O => None
       | S fuel' =>
           pow_loop fuel' (mul64 a a) (div64 b 2)
             (if negb (Z.land b 1 =? 0) then mul64 result a else result)
       end.

(** [pow<int64_t>]. *)
Definition pow (a b : Z) : option Z :=
  if b <? 0 then
    if a =? 1 then Some 1
    else if a =? -1 then
      let negative := Z.rem (wrap64 (- b)) 2 in
      Some (if negb (negative =? 0) then -1 else 1)
    else Some 0
  else pow_loop 64 a b 1.

(** *** Specification vocabulary and example data *)

(** The most-positive index of a tensor with the given (size, stride)
    dimensions, as a mathematical sum. *)
Definition most_positive_index (dims : list (Z * Z)) : Z :=
  foldr (fun d acc =>
           (if (d.1 >? 1) && (d.2 >? 0) then (d.1 - 1) * d.2 else 0) + acc)
        0 dims.

End Utils.

(** ** csrc/scheduler/registry.cpp: run-time information *)
Module RuntimeInfo.
Import Utils.

(** IR nodes are identified by their address ([Val*], [TensorView*]). *)
Abbreviation ValPtr := positive.

(** [size_t] conversion of a 64-bit signed value. *)
Definition size_t_of_int64 (z : Z) : N := Z.to_N (z mod 2 ^ 64).

(** Wrap-around of [size_t] arithmetic. *)
Definition wrap_size_t (n : N) : N := (n mod 2 ^ 64)%N.

(** What evaluating [IrBuilder::metadataExpr(input_tv)] gives for a bound
    tensor argument. *)
Record TensorMetaData : Type := mkTensorMetaData {
  data : N;
  alloc_size : list Z;
  alloc_stride : list Z
}.

(** One fusion input together with its bound argument.  For a scalar input
    [dynamic_cast<TensorView*>] yields [nullptr]. *)
Inductive FusionInput : Type :=
  | ScalarInput (v : ValPtr)
  | TensorInput (tv : ValPtr) (isCpuScalar : bool) (dtype_size : Z)
                (metadata : TensorMetaData).

Definition input_val (i : FusionInput) : ValPtr :=
  match i with
  | ScalarInput v => v
  | TensorInput tv _ _ _ => tv
  end.

Record SchedulerRuntimeInfo : Type := mkSchedulerRuntimeInfo {
  index_type_ : PrimDataType;
  input_ptrs_ : gmap positive N;
  input_discontig_strides_ : gmap positive (list N);
  alignment_map_ : gmap positive N
}.

(** Modelled from the spec: the constant [max_alignment_size_in_byte] is
    declared in [scheduler/registry.h], which is not among the sources; the
    maximum alignment is 16 bytes, the value the comment above [ptrOf] names
    ("an alignment that is not 16 Bytes"). *)
Definition max_alignment_size_in_byte : N := 16.

(** The loop "find and push discontiguous stride" of the constructor; [dims]
    lists (size, stride) from the innermost dimension outwards. *)
Fixpoint discontig_loop (dtype_size : Z) (dims : list (Z * Z))
    (expected_stride : Z) (acc : list N) : list N :=
  match dims with
  | [] => acc
  | (size, stride) :: rest =>
      if (size <=? 1) || (stride =? 0)
      then discontig_loop dtype_size rest expected_stride acc
      else if negb (stride =? expected_stride)
      then discontig_loop dtype_size rest (mul64 stride size)
             (acc ++ [size_t_of_int64 (mul64 stride dtype_size)])
      else discontig_loop dtype_size rest (mul64 expected_stride size) acc
  end.

Definition discontig_strides (dtype_size : Z) (md : TensorMetaData) : list N :=
  discontig_loop dtype_size (rev (zip (alloc_size md) (alloc_stride md))) 1 [].

(** The loop over the arguments in the constructor.  CPU scalar tensors and
    scalar inputs are skipped; [None] is the failure of
    [NVF_ERROR(alloc_sizes.size() == alloc_strides.size())].  The inputs come
    paired with their arguments, as they are once the check of the number of
    arguments has passed.  [input_sizes_] and [input_strides_elements_] are
    not part of this model, and neither is the check of the size of the
    permutation they are ordered by: where this loop returns a state the
    constructor may still raise that error. *)
Fixpoint bind_inputs (inputs : list FusionInput) (ri : SchedulerRuntimeInfo)
  : option SchedulerRuntimeInfo :=
  match inputs with
  | [] => Some ri
  | ScalarInput _ :: rest => bind_inputs rest ri
  | TensorInput tv cpu dtype_size md :: rest =>
      if cpu then bind_inputs rest ri
      else if negb (length (alloc_size md) =? length (alloc_stride md))%nat
      then None
      else bind_inputs rest
             (mkSchedulerRuntimeInfo
                (index_type_ ri)
                (<[tv := data md]> (input_ptrs_ ri))
                (<[tv := discontig_strides dtype_size md]>
                   (input_discontig_strides_ ri))
                (alignment_map_ ri))
  end.

(** The constructor.  [index_type_of_kernel] stands for the value of
    [registry_utils::getIndexTypeOfKernel], whose code is not among the
    sources. *)
Definition newSchedulerRuntimeInfo (inputs : list FusionInput)
    (forced_index_type : option PrimDataType)
    (index_type_of_kernel : PrimDataType) : option SchedulerRuntimeInfo :=
  bind_inputs inputs
    (mkSchedulerRuntimeInfo
       (match forced_index_type with
        | Some t => t
        | None => index_type_of_kernel
        end)
       ∅ ∅ ∅).

Definition ptrOf (ri : SchedulerRuntimeInfo) (tv : ValPtr) : N :=
  match input_ptrs_ ri !! tv with
  | Some p => p
  | None => max_alignment_size_in_byte
  end.

(** The [while] loop of [computeAlignmentSize]; [None] when the fuel runs
    out. *)
Fixpoint computeAlignmentSize_loop (fuel : nat)
    (ptr_address alignment_size next_alignment_size : N) : option N :=
  if ((next_alignment_size <=? max_alignment_size_in_byte)
      && (ptr_address mod next_alignment_size =? 0))%N
  then match fuel with
       | O => None
       | S fuel' =>
           computeAlignmentSize_loop fuel' ptr_address next_alignment_size
             (wrap_size_t (next_alignment_size * 2))
       end
  else Some alignment_size.

Definition computeAlignmentSize (ptr_address : N) : option N :=
  computeAlignmentSize_loop 64 ptr_address 1 2.

(** The loop over the discontiguous strides in [getAlignmentSize]. *)
Fixpoint min_over_strides (alignment_size : N) (strides : list N) : option N :=
  match strides with
  | [] => Some alignment_size
  | stride :: rest =>
      a ← computeAlignmentSize stride;
      min_over_strides (N.min alignment_size a) rest
  end.

(** [getAlignmentSize] returns the alignment and the updated object (the
    memo table [alignment_map_] may grow). *)
Definition getAlignmentSize (ri : SchedulerRuntimeInfo) (tv : ValPtr)
  : option (N * SchedulerRuntimeInfo) :=
  match alignment_map_ ri !! tv with
  | Some a => Some (a, ri)
  | None =>
      a0 ← computeAlignmentSize (ptrOf ri tv);
      a ← match input_discontig_strides_ ri !! tv with
          | Some strides => min_over_strides a0 strides
          | None => Some a0
          end;
      Some (a, mkSchedulerRuntimeInfo (index_type_ ri) (input_ptrs_ ri)
                 (input_discontig_strides_ ri)
                 (<[tv := a]> (alignment_map_ ri)))
  end.

(** Specification: [a] is the largest power of two, not above the maximum
    alignment, that divides [x]. *)
Definition largest_pow2_dividing (x a : N) : Prop :=
  ((exists k, a = 2 ^ k) /\
   a <= max_alignment_size_in_byte /\
   (a | x) /\
   forall k, 2 ^ k <= max_alignment_size_in_byte -> (2 ^ k | x) -> 2 ^ k <= a)%N.

(** The objects a client can observe: the freshly constructed one and those
    left behind by calls of [getAlignmentSize]. *)
Inductive reachable (ri0 : SchedulerRuntimeInfo) : SchedulerRuntimeInfo -> Prop :=
  | reachable_new : reachable ri0 ri0
  | reachable_call ri tv a ri' :
      reachable ri0 ri ->
      getAlignmentSize ri tv = Some (a, ri') ->
      reachable ri0 ri'.

(** *** Specification vocabulary and example data *)

(** What [getAlignmentSize] computes when the memo table has no entry. *)
Definition fresh_alignment (ri : SchedulerRuntimeInfo) (tv : positive) : option N :=
  a0 ← computeAlignmentSize (ptrOf ri tv);
  match input_discontig_strides_ ri !! tv with
  | Some strides => min_over_strides a0 strides
  | None => Some a0
  end.

Definition memo_ok (ri0 ri : SchedulerRuntimeInfo) : Prop :=
  input_ptrs_ ri = input_ptrs_ ri0 /\
  input_discontig_strides_ ri = input_discontig_strides_ ri0 /\
  forall (tv : positive) (a : N),
    alignment_map_ ri !! tv = Some a -> fresh_alignment ri0 tv = Some a.

(** The strides (in elements) of a densely packed row-major tensor: the
    stride of a dimension is the product of the sizes to its right. *)
Fixpoint contiguous_strides (sizes : list Z) : list Z :=
  match sizes with
  | [] => []
  | _ :: rest => foldr Z.mul 1 rest :: contiguous_strides rest
  end.

(** The (size, stride) pairs of a densely packed tensor, innermost dimension
    first; [e] is the stride of the first one. *)
Fixpoint running_strides (e : Z) (rsizes : list Z) : list (Z * Z) :=
  match rsizes with
  | [] => []
  | s :: rest => (s, e) :: running_strides (e * s) rest
  end.

(** The values an alignment can take. *)
Definition alignment_value (a : N) : Prop :=
  a = 1%N \/ a = 2%N \/ a = 4%N \/ a = 8%N \/ a = 16%N.

(** A tensor input that is not a CPU scalar and whose metadata has different
    numbers of allocation sizes and strides. *)
Definition mismatched (i : FusionInput) : Prop :=
  match i with
  | TensorInput _ false _ md => length (alloc_size md) <> length (alloc_stride md)
  | _ => False
  end.

End RuntimeInfo.

(** ** csrc/scheduler/registry.cpp: choosing a scheduler *)
Module Registry.
Import Utils RuntimeInfo.

(** The scheduler kinds, as the [switch] of [SchedulerEntry::canSchedule]
    lists them. *)
Inductive ScheduleHeuristic : Type :=
  | NoOp
  | PointWise
  | Reduction
  | InnerPersistent
  | OuterPersistent
  | InnerOuterPersistent
  | Transpose
  | Matmul
  | ExprEval.

#[global] Instance ScheduleHeuristic_eq_dec : EqDecision ScheduleHeuristic.
Proof. solve_decision. Defined.

(** The expression types the early checks look for; every other expression
    is [OtherOp]. *)
Inductive OpType : Type :=
  | SdpaFwdOp
  | SdpaBwdOp
  | MatmulOp
  | LinearOp
  | MmaOp
  | OtherOp.

#[global] Instance OpType_eq_dec : EqDecision OpType.
Proof. solve_decision. Defined.

(** A fusion, as far as the registry inspects it directly: the types of its
    expressions. *)
Record Fusion : Type := mkFusion {
  exprs : list OpType
}.

(** Modelled from the spec: [ir_utils::hasOpsOfType<Ts...>] is not among
    the sources; a fusion contains ops of the given types when one of its
    expressions has one of them. *)
Definition hasOpsOfType (types : list OpType) (fusion : Fusion) : bool :=
  existsb (fun e => bool_decide (e ∈ types)) (exprs fusion).

(** [HeuristicSummary]: the fields set by its constructor. *)
Record HeuristicSummary : Type := mkHeuristicSummary {
  heuristic_ : ScheduleHeuristic;
  recording_ : bool
}.

(** The code the registry calls and that lives in other files: the two gates
    of every scheduler class and the two graph analyses. *)
Class Schedulers : Type := mkSchedulers {
  canScheduleCompileTime : ScheduleHeuristic -> Fusion -> bool;
  canScheduleRunTime :
    ScheduleHeuristic -> Fusion -> SchedulerRuntimeInfo ->
    option HeuristicSummary -> bool;
  isConnectedFusionGraph : Fusion -> bool;
  hasSelfMapping : Fusion -> bool
}.

(** [checkCanSchedule<SchedulerType>], with [sh] for
    [SchedulerType::heuristicType()].  The leading [NVF_ERROR] refuses the
    instantiation with the ExprEval scheduler. *)
Definition checkCanSchedule `{Schedulers} (sh : ScheduleHeuristic)
    (fusion : Fusion) (runtime_info : SchedulerRuntimeInfo)
    (data_cache : option HeuristicSummary) : option bool :=
  if bool_decide (sh = ExprEval) then None
  else
    match data_cache with
    | None =>
        if hasOpsOfType [SdpaFwdOp; SdpaBwdOp] fusion then Some false
        else if bool_decide (sh <> Matmul)
                && hasOpsOfType [MatmulOp; LinearOp; MmaOp] fusion
        then Some false
        else if negb (isConnectedFusionGraph fusion) then Some false
        else if hasSelfMapping fusion then Some false
        else if negb (canScheduleCompileTime sh fusion) then Some false
        else Some (canScheduleRunTime sh fusion runtime_info None)
    | Some _ =>
        Some (canScheduleRunTime sh fusion runtime_info data_cache)
    end.

(** [SchedulerEntry::canSchedule]. *)
Definition canSchedule `{Schedulers} (sh : ScheduleHeuristic)
    (fusion : Fusion) (runtime_info : SchedulerRuntimeInfo)
    (data_cache : option HeuristicSummary) : option bool :=
  match sh with
  | NoOp => checkCanSchedule NoOp fusion runtime_info data_cache
  | PointWise => checkCanSchedule PointWise fusion runtime_info data_cache
  | Reduction => checkCanSchedule Reduction fusion runtime_info data_cache
  | InnerPersistent =>
      checkCanSchedule InnerPersistent fusion runtime_info data_cache
  | OuterPersistent =>
      checkCanSchedule OuterPersistent fusion runtime_info data_cache
  | InnerOuterPersistent =>
      checkCanSchedule InnerOuterPersistent fusion runtime_info data_cache
  | Transpose => checkCanSchedule Transpose fusion runtime_info data_cache
  | Matmul => checkCanSchedule Matmul fusion runtime_info data_cache
  | ExprEval => Some (canScheduleCompileTime ExprEval fusion)
  end.

(** Modelled from the spec: the table [all_heuristics_in_priority_order] is
    declared in a header that is not among the sources; the spec gives the
    order ExprEval, NoOp, Matmul, Transpose, InnerPersistent,
    OuterPersistent, InnerOuterPersistent, Reduction, PointWise. *)
Definition all_heuristics_in_priority_order : list ScheduleHeuristic :=
  [ExprEval; NoOp; Matmul; Transpose; InnerPersistent; OuterPersistent;
   InnerOuterPersistent; Reduction; PointWise].

(** The loop of [SchedulerEntry::proposeHeuristics] over a table; the call of
    [canSchedule] passes no data cache.  The outer [option] is the
    exception, the inner one [std::optional]. *)
Fixpoint proposeHeuristics_loop `{Schedulers} (table : list ScheduleHeuristic)
    (fusion : Fusion) (runtime_info : SchedulerRuntimeInfo)
  : option (option ScheduleHeuristic) :=
  match table with
  | [] => Some None
  | sh :: rest =>
      match canSchedule sh fusion runtime_info None with
      | None => None
      | Some true => Some (Some sh)
      | Some false => proposeHeuristics_loop rest fusion runtime_info
      end
  end.

Definition proposeHeuristics `{Schedulers} (fusion : Fusion)
    (runtime_info : SchedulerRuntimeInfo) : option (option ScheduleHeuristic) :=
  proposeHeuristics_loop all_heuristics_in_priority_order fusion runtime_info.

(** Specification: the conditions under which [canSchedule], called without
    a data cache, accepts a fusion for a scheduler kind. *)
Definition accepts `{Schedulers} (sh : ScheduleHeuristic) (fusion : Fusion)
    (runtime_info : SchedulerRuntimeInfo) : Prop :=
  if bool_decide (sh = ExprEval)
  then canScheduleCompileTime ExprEval fusion = true
  else hasOpsOfType [SdpaFwdOp; SdpaBwdOp] fusion = false /\
       (sh = Matmul \/ hasOpsOfType [MatmulOp; LinearOp; MmaOp] fusion = false) /\
       isConnectedFusionGraph fusion = true /\
       hasSelfMapping fusion = false /\
       canScheduleCompileTime sh fusion = true /\
       canScheduleRunTime sh fusion runtime_info None = true.

(** *** Specification vocabulary and example data *)

(** Schedulers whose gates all answer yes. *)
Definition permissive_schedulers : Schedulers :=
  mkSchedulers (fun _ _ => true) (fun _ _ _ _ => true)
               (fun _ => true) (fun _ => false).

Definition empty_runtime_info : SchedulerRuntimeInfo :=
  mkSchedulerRuntimeInfo Int32 ∅ ∅ ∅.

(** Schedulers for a fusion whose graph is not connected and that only the
    pointwise gates would take. *)
Definition pointwise_only_disconnected : Schedulers :=
  mkSchedulers (fun sh _ => bool_decide (sh = PointWise))
               (fun sh _ _ _ => bool_decide (sh = PointWise))
               (fun _ => false) (fun _ => false).

End Registry.

(** ** The pointwise scheduler *)
Module Pointwise.
Import Utils.

(** *** The reference tensor *)

Record IterDomain : Type := mkIterDomain {
  isReduction : bool;
  isBroadcast : bool
}.

Record TensorView : Type := mkTensorView {
  name : nat;
  getLogicalDomain : list IterDomain;
  isFusionInput : bool
}.

Inductive Val : Type :=
  | TensorVal (tv : TensorView)
  | ScalarVal (name : nat).

(** [ir_utils::filterByType<TensorView>] *)
Definition filterByType_TensorView (vals : list Val) : list TensorView :=
  omap (fun v => match v with
                 | TensorVal tv => Some tv
                 | ScalarVal _ => None
                 end) vals.

Record Fusion : Type := mkFusion {
  outputs : list Val
}.

(** [pointwise_utils::DomainMap]: the fusion and the answer of the base
    class method [isValidReference], whose code is not among the sources. *)
Record DomainMap : Type := mkDomainMap {
  fusion_ : Fusion;
  isValidReference : TensorView -> bool
}.

(** Modelled from the spec: [pointwise_utils::nRootDims] is not among the
    sources; it counts the non-reduction logical dimensions of a tensor. *)
Definition nRootDims (tv : TensorView) : Z :=
  Z.of_nat (length (filter (fun id => negb (isReduction id))
                           (getLogicalDomain tv))).

Definition hasMinimumSize (tv : TensorView) (num_axes : Z) : bool :=
  (num_axes =? 0) || (Z.of_nat (length (getLogicalDomain tv)) >? num_axes).

(** The conjunction guarding the body of the loop. *)
Definition eligible (dm : DomainMap) (minimum_num_axes : Z)
    (output_tv : TensorView) : bool :=
  isValidReference dm output_tv
  && hasMinimumSize output_tv minimum_num_axes
  && negb (isFusionInput output_tv).

(** The loop of [findReferenceTensorView] over the output tensors, with its
    two local variables. *)
Fixpoint findReference_loop (dm : DomainMap) (minimum_num_axes : Z)
    (outs : list TensorView) (result : option TensorView) (max_dims : Z)
  : option TensorView :=
  match outs with
  | [] => result
  | output_tv :: rest =>
      if eligible dm minimum_num_axes output_tv then
        let n_dims := nRootDims output_tv in
        if n_dims >? max_dims
        then findReference_loop dm minimum_num_axes rest (Some output_tv) n_dims
        else findReference_loop dm minimum_num_axes rest result max_dims
      else findReference_loop dm minimum_num_axes rest result max_dims
  end.

(** [DomainMap::findReferenceTensorView]; [None] is [nullptr]. *)
Definition findReferenceTensorView (dm : DomainMap) (minimum_num_axes : Z)
  : option TensorView :=
  findReference_loop dm minimum_num_axes
    (filterByType_TensorView (outputs (fusion_ dm))) None (-1).

(** *** The heuristics *)

Definition kThreadX : Z := 128.

(** [at::cuda::getCurrentDeviceProperties()] *)
Record DeviceProperties : Type := mkDeviceProperties {
  multiProcessorCount : Z;
  warpSize : Z;
  l2CacheSize : Z
}.

(** An entry of [broadcast_byte_multiples]. *)
Record BroadcastMultiple : Type := mkBroadcastMultiple {
  lhs_multiple : Z;
  rhs_multiple : Z
}.

(** What [getPointwiseHeuristics] obtains from the fusion, the run-time
    information and the helpers defined in other files:
    the data type sizes of the input and output tensors, the evaluated
    extents of the reference tensor ([elem_counts]), whether the loop domain
    of the reference has neither reduction, broadcast nor device dimension
    left, the number of vectorizable inputs and outputs, the broadcast
    multiples, the device, and the helpers [scheduler_utils::breakIsDisjoint]
    (on the view disjoint sets), [scheduler_utils::lastPow2] and
    [vectorize_helper::getVectorizationFactor] (as a function of the break
    point). *)
Record PointwiseProblem : Type := mkPointwiseProblem {
  input_dtype_sizes : list Z;
  output_dtype_sizes : list Z;
  elem_counts : list Z;
  loop_domain_empty : bool;
  num_vectorizable : Z;
  broadcast_byte_multiples : list BroadcastMultiple;
  device : DeviceProperties;
  breakIsDisjoint : Z -> bool;
  lastPow2 : Z -> Z;
  getVectorizationFactor : Z -> Z
}.

Definition n_elems (p : PointwiseProblem) : Z :=
  fold_left mul64 (elem_counts p) 1.

Definition max_input_dtype_size (p : PointwiseProblem) : Z :=
  fold_left Z.max (input_dtype_sizes p) 2.

Definition max_unroll_factor (p : PointwiseProblem) : Z :=
  let wave := mul64 (multiProcessorCount (device p)) kThreadX in
  let m := ceilDiv (div64 16 (max_input_dtype_size p))
                   (Z.max (Z.shiftr (lastPow2 p (num_vectorizable p)) 2) 1) in
  if (n_elems p <? wave) && (m >? 1)
  then Z.min m (ceilDiv (n_elems p) wave)
  else m.

Definition dtype_sum (p : PointwiseProblem) : Z :=
  fold_left add64 (output_dtype_sizes p)
    (fold_left add64 (input_dtype_sizes p) 0).

Definition transfer_size_1d (p : PointwiseProblem) : Z :=
  fold_left (fun t e => mul64 (mul64 t e) (dtype_sum p)) (elem_counts p) 1.

(** The local variables the break-point loop assigns. *)
Record BreakState : Type := mkBreakState {
  st_break_point : Z;
  st_flip_grid_binding : bool;
  st_right_elem_count : Z;
  st_bdimx : Z;
  st_bdimy : Z;
  st_gdim_left : Z;
  st_gdim_right : Z;
  st_min_total_transfer : Z
}.

Definition initial_state : BreakState :=
  mkBreakState 0 false 0 kThreadX 1 1 1 int64_max.

(** The entry [broadcast_byte_multiples[break_point_i]]; the index is in
    range by the size check that precedes the loop. *)
Definition multiple_at (p : PointwiseProblem) (i : nat) : BroadcastMultiple :=
  nth i (broadcast_byte_multiples p) (mkBroadcastMultiple 0 0).

Definition cur_right_elem_count (p : PointwiseProblem) (i : nat) : Z :=
  fold_left mul64 (drop i (elem_counts p)) 1.

Definition right_transfer_size (p : PointwiseProblem) (i : nat) : Z :=
  fold_left (fun t e => mul64 (mul64 t e) (rhs_multiple (multiple_at p i)))
            (drop i (elem_counts p)) 1.

(** One iteration of the loop over [break_point_i]: [None] is [continue],
    [Some] carries the variables as assigned when the candidate is used. *)
Definition candidate (p : PointwiseProblem) (i : nat) (st : BreakState)
  : option BreakState :=
  let dev := device p in
  let unroll := max_unroll_factor p in
  if negb (breakIsDisjoint p (Z.of_nat i)) then None
  else
    let cur_right := cur_right_elem_count p i in
    let cur_left_elem_count := div64 (n_elems p) cur_right in
    if cur_left_elem_count <=? 1 then None
    else
      let lhs_byte_multiple := lhs_multiple (multiple_at p i) in
      let rhs_byte_multiple := rhs_multiple (multiple_at p i) in
      let left_transfer_size :=
        fold_left (fun t e => mul64 (mul64 t e) lhs_byte_multiple)
                  (take i (elem_counts p)) 1 in
      let cur_transfer_size :=
        mul64 left_transfer_size (right_transfer_size p i) in
      if (cur_transfer_size >=? st_min_total_transfer st)
         || (mul64 cur_transfer_size 10 >=? mul64 (transfer_size_1d p) 9)
      then None
      else if ceilDiv cur_right unroll <=? warpSize dev then None
      else
        let flip_grid_binding :=
          (lhs_byte_multiple <=? rhs_byte_multiple)
          && (l2CacheSize dev <? mul64 (right_transfer_size p i) 2) in
        let bdimx := Z.min (ceilDiv cur_right unroll) kThreadX in
        let bdimy :=
          if cur_left_elem_count >? multiProcessorCount dev
          then div64 kThreadX bdimx else 1 in
        Some (mkBreakState
                (Z.of_nat i)
                flip_grid_binding
                cur_right
                bdimx
                bdimy
                (ceilDiv cur_left_elem_count bdimy)
                (ceilDiv cur_right (mul64 bdimx unroll))
                cur_transfer_size).

Fixpoint search_loop (p : PointwiseProblem) (indices : list nat)
    (st : BreakState) : BreakState :=
  match indices with
  | [] => st
  | i :: rest =>
      search_loop p rest
        (match candidate p i st with
         | Some st' => st'
         | None => st
         end)
  end.

(** The scope "Figure out break point position". *)
Definition breakPointSearch (p : PointwiseProblem) : BreakState :=
  if mul64 (n_elems p) 2 >? mul64 (multiProcessorCount (device p)) kThreadX
  then search_loop p (seq 0 (length (elem_counts p))) initial_state
  else initial_state.

Record LaunchParams : Type := mkLaunchParams {
  lp_bdimx : option Z;
  lp_bdimy : option Z
}.

Record PointwiseParams : Type := mkPointwiseParams {
  vectorize : bool;
  unroll_factor : Z;
  break_point : Z;
  flip_grid_binding : bool;
  split_block : bool;
  split_grid_y_dim : bool;
  lparams : LaunchParams
}.

(** A freshly constructed [PointwiseParams].  The member initializers are
    declared in a header that is not among the sources; the flags are taken
    to start out false, the break point at 0 and the unroll factor at 1. *)
Definition newPointwiseParams : PointwiseParams :=
  mkPointwiseParams false 1 0 false false false (mkLaunchParams None None).

(** The tail of [getPointwiseHeuristics], from "Don't try to vectorize if
    it's not recommended" on. *)
Definition fillParams (p : PointwiseProblem) (st : BreakState)
  : option PointwiseParams :=
  let vectorize_factor :=
    Z.min (max_unroll_factor p) (getVectorizationFactor p (st_break_point st)) in
  if negb ((st_right_elem_count st >? 0) || (st_break_point st =? 0)) then None
  else if (st_bdimy st >? 1) && (st_gdim_right st >? 1) then None
  else
    let flip := st_flip_grid_binding st in
    Some (mkPointwiseParams
            (negb (vectorize_factor =? 1))
            (if vectorize_factor =? 1 then max_unroll_factor p
             else vectorize_factor)
            (st_break_point st)
            flip
            (st_bdimy st >? 1)
            (if (flip && (st_gdim_right st >? 65535))
                || (negb flip && (st_gdim_left st >? 65535))
             then true
             else split_grid_y_dim newPointwiseParams)
            (mkLaunchParams (Some (st_bdimx st))
               (if st_bdimy st >? 1 then Some (st_bdimy st) else None))).

Definition getPointwiseHeuristics (p : PointwiseProblem)
  : option PointwiseParams :=
  if loop_domain_empty p || (n_elems p =? 0) then Some newPointwiseParams
  else if negb (length (broadcast_byte_multiples p)
                =? length (elem_counts p))%nat
  then None
  else fillParams p (breakPointSearch p).

(** *** Specification vocabulary and example data *)

(** What the two local variables of the loop hold after the outputs [pre]
    have been visited. *)
Definition best_of (dm : DomainMap) (m : Z) (pre : list TensorView)
    (result : option TensorView) (max_dims : Z) : Prop :=
  match result with
  | None =>
      max_dims = -1 /\
      forall (j : nat) (o : TensorView), pre !! j = Some o -> eligible dm m o = false
  | Some r =>
      max_dims = nRootDims r /\
      exists i : nat,
        pre !! i = Some r /\
        eligible dm m r = true /\
        (forall (j : nat) (o : TensorView),
            pre !! j = Some o -> eligible dm m o = true ->
            nRootDims o <= nRootDims r) /\
        (forall (j : nat) (o : TensorView),
            pre !! j = Some o -> eligible dm m o = true ->
            nRootDims o = nRootDims r -> (i <= j)%nat)
  end.

(** The two cases that the source's comment on the test
    [lhs_byte_multiple <= rhs_byte_multiple] names, "If outer broadcast, or
    balanced broadcast": the left side of the break point moves fewer bytes
    per element than the right side, or as many. *)
Definition outer_broadcast (p : PointwiseProblem) (i : nat) : Prop :=
  lhs_multiple (multiple_at p i) < rhs_multiple (multiple_at p i).

Definition balanced_broadcast (p : PointwiseProblem) (i : nat) : Prop :=
  lhs_multiple (multiple_at p i) = rhs_multiple (multiple_at p i).

(** Two outputs: a three-dimensional tensor that is also a fusion input and
    a two-dimensional tensor computed by the fusion. *)
Definition passthrough_output : TensorView :=
  mkTensorView 0
    [mkIterDomain false false; mkIterDomain false false; mkIterDomain false false]
    true.

Definition computed_output : TensorView :=
  mkTensorView 1 [mkIterDomain false false; mkIterDomain false false] false.

Definition passthrough_domain_map : DomainMap :=
  mkDomainMap
    (mkFusion [TensorVal passthrough_output; TensorVal computed_output])
    (fun _ => true).

(** [scheduler_utils::lastPow2] on the examples: the largest power of two
    not above the argument. *)
Definition lastPow2_ref (n : Z) : Z := if n <=? 0 then 0 else 2 ^ Z.log2 n.

(** A [1000 x 100000000] output of 4-byte elements with three 4-byte inputs,
    two of which are broadcast along the inner dimension and one along the
    outer dimension, on a device with 108 multiprocessors and 40 MiB of L2
    cache. *)
Definition wide_problem : PointwiseProblem :=
  mkPointwiseProblem [4; 4; 4] [4] [1000; 100000000] false 2
    [mkBroadcastMultiple 0 16; mkBroadcastMultiple 12 8]
    (mkDeviceProperties 108 32 41943040)
    (fun _ => true) lastPow2_ref (fun _ => 4).

(** The same output with two inputs, one broadcast along each dimension. *)
Definition balanced_problem : PointwiseProblem :=
  mkPointwiseProblem [4; 4] [4] [1000; 100000000] false 2
    [mkBroadcastMultiple 0 12; mkBroadcastMultiple 8 8]
    (mkDeviceProperties 108 32 41943040)
    (fun _ => true) lastPow2_ref (fun _ => 4).

End Pointwise.

(** ** The lowering utilities: where a tensor is allocated *)
Module LowerUtils.
Import Utils.

Inductive ParallelType : Type :=
  | BIDz | BIDy | BIDx | TIDz | TIDy | TIDx
  | Vectorize | MisalignedVectorize | Unroll | Unswitch | Group | Serial.

#[global] Instance ParallelType_eq_dec : EqDecision ParallelType.
Proof. solve_decision. Defined.

Inductive MemoryType : Type :=
  | Local | Shared | Global | Tensor.

#[global] Instance MemoryType_eq_dec : EqDecision MemoryType.
Proof. solve_decision. Defined.

(** An [IterDomain*]; [id_name] stands for the address. *)
Record IterDomain : Type := mkIterDomain {
  id_name : nat;
  isReduction : bool;
  getParallelType : ParallelType
}.

(** A [ForLoop*]; [fl_name] stands for the address. *)
Record ForLoop : Type := mkForLoop {
  fl_name : nat;
  iter_domain : IterDomain
}.

(** A [TensorView*] with the member functions the allocation walk calls;
    [axis] answers [None] when the accessor raises an error. *)
Record TensorView : Type := mkTensorView {
  name : nat;
  axis : Z -> option IterDomain;
  getComputeAtPosition : Z;
  getMemoryType : MemoryType;
  isCircularBuffered : bool
}.

(** [struct BasicAllocInfo]; [None] is [nullptr]. *)
Record BasicAllocInfo : Type := mkBasicAllocInfo {
  init_for_loop : option ForLoop;
  alloc_for_loop : option ForLoop;
  alloc_pos : Z
}.

(** What [getAllocInformation] asks of [GpuLower::current()] and of the
    current fusion. *)
Class GpuLower : Type := mkGpuLower {
  areMappedPermissive : IterDomain -> IterDomain -> bool;
  getCircularBufferAxis : TensorView -> option IterDomain;
  isTerminatingOutput : TensorView -> bool
}.

Definition same_id (a : IterDomain) (b : option IterDomain) : bool :=
  match b with
  | Some b => bool_decide (id_name a = id_name b)
  | None => false
  end.

(** The loop of [getAllocInformation] over the enclosing for-loops; a
    [break] returns the information gathered so far. *)
Fixpoint alloc_loop `{GpuLower} (tv : TensorView) (id_map : gmap nat IterDomain)
    (use_id_map : bool) (for_loops : list ForLoop) (info : BasicAllocInfo)
    (outer_alloc_found : bool) : option BasicAllocInfo :=
  match for_loops with
  | [] => Some info
  | fl :: rest =>
      if alloc_pos info =? getComputeAtPosition tv then Some info
      else
        ax ← axis tv (alloc_pos info);
        if isReduction ax then
          if isTerminatingOutput tv then Some info else None
        else
          let fl_id := iter_domain fl in
          if bool_decide (getParallelType fl_id = Unroll) then Some info
          else
            let outer_alloc_found :=
              outer_alloc_found
              || (bool_decide (getParallelType fl_id = Unswitch)
                  && bool_decide (getMemoryType tv = Shared)) in
            let outer_alloc_found :=
              outer_alloc_found || bool_decide (getMemoryType tv = Global) in
            let outer_alloc_found :=
              outer_alloc_found
              || (isCircularBuffered tv
                  && same_id ax (getCircularBufferAxis tv)) in
            let local_id :=
              if use_id_map
              then match id_map !! id_name ax with
                   | Some mapped => mapped
                   | None => ax
                   end
              else ax in
            let pos :=
              if areMappedPermissive local_id fl_id
              then add64 (alloc_pos info) 1
              else alloc_pos info in
            alloc_loop tv id_map use_id_map rest
              (mkBasicAllocInfo
                 (Some fl)
                 (if outer_alloc_found then alloc_for_loop info else Some fl)
                 pos)
              outer_alloc_found
      end.

Definition getAllocInformation `{GpuLower} (tv : TensorView)
    (for_loops : list ForLoop) (id_map : gmap nat IterDomain)
    (use_id_map : bool) : option BasicAllocInfo :=
  alloc_loop tv id_map use_id_map for_loops
    (mkBasicAllocInfo None None 0) false.

(** *** Specification vocabulary and example data *)

(** Loops and axes are mapped when they carry the same name; no tensor is
    circular buffered. *)
Definition lowering_by_name : GpuLower :=
  mkGpuLower (fun a b => bool_decide (id_name a = id_name b))
             (fun _ => None) (fun _ => true).

(** An accessor over a loop domain given as a list: the position is
    wrapped with [wrapDim]. *)
Definition axis_of (loop_domain : list IterDomain) (pos : Z)
  : option IterDomain :=
  i ← wrapDim pos (Z.of_nat (length loop_domain));
  loop_domain !! Z.to_nat i.

(** A local tensor with three serial axes, inlined at position 2, inside
    the three loops of its consumer. *)
Definition inlined_tensor : TensorView :=
  mkTensorView 1
    (axis_of [mkIterDomain 0 false Serial; mkIterDomain 1 false Serial;
              mkIterDomain 2 false Serial])
    2 Local false.

Definition consumer_loops : list ForLoop :=
  [mkForLoop 0 (mkIterDomain 0 false Serial);
   mkForLoop 1 (mkIterDomain 1 false Serial);
   mkForLoop 2 (mkIterDomain 2 false Serial)].

(** The same tensor placed in global memory. *)
Definition global_tensor : TensorView :=
  mkTensorView 2
    (axis_of [mkIterDomain 0 false Serial; mkIterDomain 1 false Serial;
              mkIterDomain 2 false Serial])
    2 Global false.

End LowerUtils.

(** ** The allocation pass

    [AllocationInserter::fillAllocationInformation], which turns the result
    of [getAllocInformation] into the places where the allocation and the
    initialization of a buffer are inserted. *)

Module Allocation.
Import Utils LowerUtils.

(** The [Expr*] an expression is placed before: one of the enclosing
    for-loops, or the expression being visited. *)
Inductive PlaceBefore : Type :=
  | BeforeLoop (fl : ForLoop)
  | BeforeExpr.

(** The members of [struct AllocationInformation] that
    [fillAllocationInformation] fills. *)
Record AllocationInformation : Type := mkAllocationInformation {
  ai_init_for_loop : option ForLoop;
  ai_init_place_before : PlaceBefore;
  ai_alloc_for_loop : option ForLoop;
  ai_alloc_place_before : PlaceBefore;
  ai_alloc_pos : Z;
  ai_buffer : TensorView
}.

(** Comparison of two [ForLoop*]; [None] is [nullptr]. *)
Definition ptr_eq (a b : option ForLoop) : bool :=
  match a, b with
  | Some a, Some b => bool_decide (fl_name a = fl_name b)
  | None, None => true
  | _, _ => false
  end.

(** The lambda [next_fl]: the loop after the first occurrence of [fl] that
    has a successor; running off the end is the [NVF_ERROR]. *)
Fixpoint next_fl (fl : ForLoop) (fls : list ForLoop) : option ForLoop :=
  match fls with
  | [] => None
  | x :: rest =>
      if ptr_eq (Some fl) (Some x) then
        match rest with
        | y :: _ => Some y
        | [] => next_fl fl rest
        end
      else next_fl fl rest
  end.

(** [!for_loops_.empty() ? for_loops_[0] : expr] *)
Definition outermost_place (for_loops : list ForLoop) : PlaceBefore :=
  match for_loops with
  | fl :: _ => BeforeLoop fl
  | [] => BeforeExpr
  end.

(** [fillAllocationInformation] on the buffer [buffer] inside the loops
    [for_loops_].  The call of [getAllocInformation] leaves its last two
    arguments to the defaults of a declaration that is not among the
    sources; they are the parameters [id_map] and [use_id_map] here.
    [for_loops_.back()] is only evaluated when a loop was returned, hence on
    a non-empty vector. *)
Definition fillAllocationInformation `{GpuLower}
    (id_map : gmap nat IterDomain) (use_id_map : bool)
    (buffer : TensorView) (for_loops : list ForLoop)
  : option AllocationInformation :=
  loop_alloc_info ← getAllocInformation buffer for_loops id_map use_id_map;
  init_place_before ←
    match init_for_loop loop_alloc_info with
    | None => Some (outermost_place for_loops)
    | Some fl =>
        if ptr_eq (Some fl) (last for_loops) then Some BeforeExpr
        else BeforeLoop <$> next_fl fl for_loops
    end;
  alloc_place_before ←
    (if ptr_eq (alloc_for_loop loop_alloc_info) (init_for_loop loop_alloc_info)
     then Some init_place_before
     else
       match alloc_for_loop loop_alloc_info with
       | None => Some (outermost_place for_loops)
       | Some fl =>
           if ptr_eq (Some fl) (last for_loops) then None
           else BeforeLoop <$> next_fl fl for_loops
       end);
  Some (mkAllocationInformation
          (init_for_loop loop_alloc_info)
          init_place_before
          (if ptr_eq (alloc_for_loop loop_alloc_info)
                     (init_for_loop loop_alloc_info)
           then init_for_loop loop_alloc_info
           else alloc_for_loop loop_alloc_info)
          alloc_place_before
          (alloc_pos loop_alloc_info)
          buffer).

(** *** Specification vocabulary *)

(** The place in front of the loop at depth [k]: that loop, or the
    expression itself below the innermost loop. *)
Definition place_at (for_loops : list ForLoop) (k : nat) : PlaceBefore :=
  match for_loops !! k with
  | Some fl => BeforeLoop fl
  | None => BeforeExpr
  end.

End Allocation.

(** ** IR utilities

    The accessors of [ir_utils] that go from values and expressions to
    tensors and their loop domains. *)

Module IrUtils.

Abbreviation ParallelType := LowerUtils.ParallelType.
Abbreviation MemoryType := LowerUtils.MemoryType.

Definition ParallelType_index (pt : ParallelType) : nat :=
  match pt with
  | LowerUtils.BIDz => 0 | LowerUtils.BIDy => 1 | LowerUtils.BIDx => 2
  | LowerUtils.TIDz => 3 | LowerUtils.TIDy => 4 | LowerUtils.TIDx => 5
  | LowerUtils.Vectorize => 6 | LowerUtils.MisalignedVectorize => 7
  | LowerUtils.Unroll => 8 | LowerUtils.Unswitch => 9
  | LowerUtils.Group => 10 | LowerUtils.Serial => 11
  end%nat.

Definition ParallelType_of_index (n : nat) : option ParallelType :=
  match n with
  | 0 => Some LowerUtils.BIDz | 1 => Some LowerUtils.BIDy
  | 2 => Some LowerUtils.BIDx | 3 => Some LowerUtils.TIDz
  | 4 => Some LowerUtils.TIDy | 5 => Some LowerUtils.TIDx
  | 6 => Some LowerUtils.Vectorize | 7 => Some LowerUtils.MisalignedVectorize
  | 8 => Some LowerUtils.Unroll | 9 => Some LowerUtils.Unswitch
  | 10 => Some LowerUtils.Group | 11 => Some LowerUtils.Serial
  | _ => None
  end%nat.

(** The key type of [std::unordered_map<ParallelType, IterDomain*>]. *)
#[global] Instance ParallelType_countable : Countable ParallelType.
Proof.
  refine (inj_countable ParallelType_index ParallelType_of_index _).
  intros []; reflexivity.
Defined.

(** An [IterDomain*] with the member functions the accessors call;
    [id_name] stands for the address.  [start_isZeroInt] is
    [start()->isZeroInt()]; [extent_value] is the value of [extent()] when
    [extent()->isConstInt()] holds and [None] otherwise. *)
Record IterDomain : Type := mkIterDomain {
  id_name : nat;
  isReduction : bool;
  isParallelized : bool;
  isThread : bool;
  getParallelType : ParallelType;
  start_isZeroInt : bool;
  hasPaddingToMultipleOfWarp : bool;
  extent_value : option Z
}.

Record TensorView : Type := mkTensorView {
  name : nat;
  getMemoryType : MemoryType;
  getLoopDomain : list IterDomain
}.

(** A [Val*]: a [TensorView], a [kir::TensorIndex] with its [view()], or
    another value. *)
Inductive Val : Type :=
  | TensorViewVal (tv : TensorView)
  | TensorIndexVal (view : TensorView)
  | OtherVal.

Record Expr : Type := mkExpr {
  inputs : list Val;
  outputs : list Val
}.

(** [getTv]; [None] is [nullptr]. *)
Definition getTv (val : Val) : option TensorView :=
  match val with
  | TensorViewVal tv => Some tv
  | TensorIndexVal view => Some view
  | OtherVal => None
  end.

Fixpoint getTvs (vals : list Val) : list TensorView :=
  match vals with
  | [] => []
  | val :: rest =>
      match getTv val with
      | Some tv => tv :: getTvs rest
      | None => getTvs rest
      end
  end.

(** The loop shared by [getTvOutput] and [getTvInput]. *)
Fixpoint first_tv (vals : list Val) : option TensorView :=
  match vals with
  | [] => None
  | val :: rest =>
      match getTv val with
      | Some tv => Some tv
      | None => first_tv rest
      end
  end.

Definition getTvOutput (expr : Expr) : option TensorView :=
  first_tv (outputs expr).

Definition getTvInput (expr : Expr) : option TensorView :=
  first_tv (inputs expr).

(** The loop of [getMaybeWarpReductionDim] over the loop domain of the
    output: [None] is the [return std::nullopt] inside the loop, [Some r]
    the value of [reduction_on_xdim] when the loop runs to its end. *)
Fixpoint warp_reduction_loop (loop : list IterDomain)
    (reduction_on_xdim : option IterDomain) : option (option IterDomain) :=
  match loop with
  | [] => Some reduction_on_xdim
  | id :: rest =>
      if isReduction id && isParallelized id then
        if bool_decide (getParallelType id = LowerUtils.TIDx)
        then warp_reduction_loop rest (Some id)
        else if isThread id then None
        else warp_reduction_loop rest reduction_on_xdim
      else warp_reduction_loop rest reduction_on_xdim
  end.

(** [getMaybeWarpReductionDim] on a device of warp size [warp_size]; the
    inner option is the [std::optional] returned.  The input is
    dereferenced without a null check: the outer [None] is the call with an
    input that is no tensor. *)
Definition getMaybeWarpReductionDim (warp_size : Z) (output input : Val)
  : option (option IterDomain) :=
  match getTv output with
  | None => Some None
  | Some tv_out =>
      tv_in ← getTv input;
      Some
        (if negb (bool_decide (getMemoryType tv_in = LowerUtils.Local))
            || negb (bool_decide (getMemoryType tv_out = LowerUtils.Local))
         then None
         else
           match warp_reduction_loop (getLoopDomain tv_out) None with
           | None => None
           | Some None => None
           | Some (Some reduction_on_xdim) =>
               if negb (start_isZeroInt reduction_on_xdim) then None
               else if hasPaddingToMultipleOfWarp reduction_on_xdim
               then Some reduction_on_xdim
               else
                 match extent_value reduction_on_xdim with
                 | Some extent_value =>
                     if Z.rem extent_value warp_size =? 0
                     then Some reduction_on_xdim
                     else None
                 | None => None
                 end
           end)
  end.

(** The loop of [getParallelDomains]; [insert] keeps an entry that is
    already present. *)
Fixpoint parallel_domains_loop (loop : list IterDomain)
    (parallel_domains : gmap ParallelType IterDomain)
  : gmap ParallelType IterDomain :=
  match loop with
  | [] => parallel_domains
  | d :: rest =>
      parallel_domains_loop rest
        (if isThread d then
           match parallel_domains !! getParallelType d with
           | Some _ => parallel_domains
           | None => <[getParallelType d := d]> parallel_domains
           end
         else parallel_domains)
  end.

(** [getParallelDomains]; [None] is the [NVF_ERROR] for a value that is
    neither a tensor nor a tensor index. *)
Definition getParallelDomains (val : Val)
  : option (gmap ParallelType IterDomain) :=
  match val with
  | TensorViewVal tv => Some (parallel_domains_loop (getLoopDomain tv) ∅)
  | TensorIndexVal view => Some (parallel_domains_loop (getLoopDomain view) ∅)
  | OtherVal => None
  end.

(** *** Specification vocabulary and example data *)

(** A reduction domain bound to [threadIdx.x]. *)
Definition tidx_reduction (d : IterDomain) : Prop :=
  isReduction d = true /\ isParallelized d = true /\
  getParallelType d = LowerUtils.TIDx.

(** A register tensor whose loop domain is a block-parallel iteration
    domain followed by two reduction domains bound to [threadIdx.x], the
    second of extent 64. *)
Definition warp_reduced : TensorView :=
  mkTensorView 0 LowerUtils.Local
    [mkIterDomain 0 false true true LowerUtils.BIDx true false None;
     mkIterDomain 1 true true true LowerUtils.TIDx true false (Some 32);
     mkIterDomain 2 true true true LowerUtils.TIDx true false (Some 64)].

Definition warp_reduce_expr : Expr :=
  mkExpr [OtherVal; TensorIndexVal warp_reduced]
         [OtherVal; TensorViewVal warp_reduced].

End IrUtils.

(* ===================================================================== *)
(** * Part II: properties                                                 *)
(* ===================================================================== *)

Module UtilsFacts.
Import Utils.


Lemma wrap64_small z : - 2 ^ 63 <= z < 2 ^ 63 -> wrap64 z = z.
Proof.
  intros Hz. unfold wrap64.
  rewrite Z.mod_small; lia.
Qed.

Lemma most_positive_index_nonneg (dims : list (Z * Z)) :
  Forall (fun d => 0 <= d.2) dims -> 0 <= most_positive_index dims.
Proof.
  induction 1 as [| [size stride] rest Hd Hrest IH]; simpl in *; [lia|].
  destruct (Z.gtb_spec size 1); simpl; [|lia].
  destruct (Z.gtb_spec stride 0); nia.
Qed.

(** Without overflow and with non-negative strides, [addDim] accumulates
    the most-positive index, and the type returned is the type of the
    accumulated value. *)
Lemma addDims_accumulates (dims : list (Z * Z)) (k : KernelIndexTypeCompute) :
  Forall (fun d => 0 <= d.2 /\ d.1 < 2 ^ 63) dims ->
  0 <= tensor_most_positive_index_ k ->
  tensor_most_positive_index_ k + most_positive_index dims < 2 ^ 63 ->
  addDims k dims =
  Some (mkKernelIndexTypeCompute
          (tensor_most_positive_index_ k + most_positive_index dims),
        getType (mkKernelIndexTypeCompute
                   (tensor_most_positive_index_ k + most_positive_index dims))).
Proof.
  intros Hdims. revert k.
  induction Hdims as [| [size stride] rest [Hstride Hsize] Hrest IH];
    intros [idx] Hidx Hsum;
    cbn [tensor_most_positive_index_ most_positive_index foldr fst snd addDims]
      in *.
  - rewrite Z.add_0_r. reflexivity.
  - fold (most_positive_index rest) in *.
    assert (Hnn : 0 <= most_positive_index rest).
    { apply most_positive_index_nonneg.
      eapply Forall_impl; [exact Hrest|]. intros d [Hd _]. exact Hd. }
    unfold addDim. cbn [tensor_most_positive_index_].
    destruct (Z.gtb_spec size 1) as [Hgt | Hle]; cbn [andb] in *.
    + destruct (Z.geb_spec stride 0) as [_ | ?]; [|lia].
      destruct (Z.gtb_spec stride 0) as [Hpos | Hzero].
      * assert (Hterm : 0 <= (size - 1) * stride) by nia.
        unfold add64, mul64, sub64.
        rewrite (wrap64_small (size - 1)) by lia.
        rewrite (wrap64_small ((size - 1) * stride)) by lia.
        rewrite (wrap64_small (idx + (size - 1) * stride)) by lia.
        rewrite IH; cbn [tensor_most_positive_index_]; [|lia|lia].
        rewrite Z.add_assoc. reflexivity.
      * rewrite IH; cbn [tensor_most_positive_index_]; [|lia|lia].
        reflexivity.
    + rewrite IH; cbn [tensor_most_positive_index_]; [|lia|lia].
      reflexivity.
Qed.





End UtilsFacts.

Module RuntimeInfoFacts.
Import Utils RuntimeInfo.

(** *** [computeAlignmentSize] *)

Lemma computeAlignmentSize_unfold (p : N) :
  computeAlignmentSize p =
  Some (if p mod 2 =? 0 then
          if p mod 4 =? 0 then
            if p mod 8 =? 0 then
              if p mod 16 =? 0 then 16 else 8
            else 4
          else 2
        else 1)%N.
Proof.
  unfold computeAlignmentSize.
  change (computeAlignmentSize_loop 64 p 1 2) with
    (if (p mod 2 =? 0)%N
     then computeAlignmentSize_loop 63 p 2 4 else Some 1%N).
  destruct (p mod 2 =? 0)%N; [|reflexivity].
  change (computeAlignmentSize_loop 63 p 2 4) with
    (if (p mod 4 =? 0)%N
     then computeAlignmentSize_loop 62 p 4 8 else Some 2%N).
  destruct (p mod 4 =? 0)%N; [|reflexivity].
  change (computeAlignmentSize_loop 62 p 4 8) with
    (if (p mod 8 =? 0)%N
     then computeAlignmentSize_loop 61 p 8 16 else Some 4%N).
  destruct (p mod 8 =? 0)%N; [|reflexivity].
  change (computeAlignmentSize_loop 61 p 8 16) with
    (if (p mod 16 =? 0)%N
     then computeAlignmentSize_loop 60 p 16 32 else Some 8%N).
  destruct (p mod 16 =? 0)%N; reflexivity.
Qed.

Lemma largest_pow2_intro (p j : N) :
  (j <= 4)%N -> (2 ^ j | p)%N -> ((j < 4)%N -> ~ (2 ^ (j + 1) | p)%N) ->
  largest_pow2_dividing p (2 ^ j).
Proof.
  intros Hj Hdiv Hnext. unfold largest_pow2_dividing, max_alignment_size_in_byte.
  change 16%N with (2 ^ 4)%N.
  repeat split.
  - exists j; reflexivity.
  - apply N.pow_le_mono_r; lia.
  - exact Hdiv.
  - intros k Hk Hkd.
    destruct (N.le_gt_cases k j) as [Hle | Hgt].
    + apply N.pow_le_mono_r; lia.
    + exfalso.
      assert (Hk4 : (k <= 4)%N).
      { apply (N.pow_le_mono_r_iff 2); [lia | exact Hk]. }
      apply Hnext; [lia|].
      apply N.divide_trans with (m := (2 ^ k)%N); [|exact Hkd].
      exists (2 ^ (k - (j + 1)))%N.
      rewrite <- N.pow_add_r. f_equal. lia.
Qed.

Lemma computeAlignmentSize_spec (p : N) :
  exists a, computeAlignmentSize p = Some a /\ largest_pow2_dividing p a.
Proof.
  rewrite computeAlignmentSize_unfold. eexists; split; [reflexivity|].
  assert (Hmd : forall c : N, c <> 0%N -> (p mod c)%N = 0%N <-> (c | p)%N).
  { intros c Hc. apply N.Lcm0.mod_divide. }
  destruct (N.eqb_spec (p mod 2) 0) as [H2 | H2].
  - destruct (N.eqb_spec (p mod 4) 0) as [H4 | H4].
    + destruct (N.eqb_spec (p mod 8) 0) as [H8 | H8].
      * destruct (N.eqb_spec (p mod 16) 0) as [H16 | H16].
        -- apply (largest_pow2_intro p 4); [lia | | intros Hlt; lia].
           apply (Hmd 16%N); [discriminate | exact H16].
        -- apply (largest_pow2_intro p 3); [lia | | intros _ Hd].
           ++ apply (Hmd 8%N); [discriminate | exact H8].
           ++ apply H16, (Hmd 16%N); [discriminate | exact Hd].
      * apply (largest_pow2_intro p 2); [lia | | intros _ Hd].
        -- apply (Hmd 4%N); [discriminate | exact H4].
        -- apply H8, (Hmd 8%N); [discriminate | exact Hd].
    + apply (largest_pow2_intro p 1); [lia | | intros _ Hd].
      * apply (Hmd 2%N); [discriminate | exact H2].
      * apply H4, (Hmd 4%N); [discriminate | exact Hd].
  - apply (largest_pow2_intro p 0); [lia | | intros _ Hd].
    + exists p. change (2 ^ 0)%N with 1%N. lia.
    + apply H2, (Hmd 2%N); [discriminate | exact Hd].
Qed.

Lemma foldr_min_shift (l : list N) (acc a : N) :
  foldr N.min (N.min acc a) l = N.min a (foldr N.min acc l).
Proof.
  induction l as [| x l IH]; simpl.
  - lia.
  - rewrite IH. lia.
Qed.

Lemma min_over_strides_spec (strides : list N) (acc : N) :
  exists als,
    Forall2 largest_pow2_dividing strides als /\
    min_over_strides acc strides = Some (foldr N.min acc als).
Proof.
  revert acc. induction strides as [| stride rest IH]; intros acc.
  - exists []. split; [constructor | reflexivity].
  - destruct (computeAlignmentSize_spec stride) as (a & Ha & Hspec).
    destruct (IH (N.min acc a)) as (als & Hals & Hrest).
    exists (a :: als). split; [constructor; assumption|].
    simpl. rewrite Ha. simpl. rewrite Hrest.
    f_equal. apply foldr_min_shift.
Qed.

(** *** The constructor *)

Lemma bind_inputs_frame (inputs : list FusionInput) (ri ri' : SchedulerRuntimeInfo) :
  bind_inputs inputs ri = Some ri' ->
  alignment_map_ ri' = alignment_map_ ri /\
  forall tv : positive, tv ∉ map input_val inputs ->
    input_ptrs_ ri' !! tv = input_ptrs_ ri !! tv /\
    input_discontig_strides_ ri' !! tv = input_discontig_strides_ ri !! tv.
Proof.
  revert ri. induction inputs as [| i rest IH]; intros ri Hb; simpl in Hb.
  - injection Hb as <-. auto.
  - destruct i as [v | tv0 cpu dsz md].
    + destruct (IH _ Hb) as [Hal Hfr]. split; [exact Hal|].
      intros tv Hnotin. apply Hfr. intros Hin. apply Hnotin.
      simpl. apply elem_of_cons. right. exact Hin.
    + destruct cpu.
      * destruct (IH _ Hb) as [Hal Hfr]. split; [exact Hal|].
        intros tv Hnotin. apply Hfr. intros Hin. apply Hnotin.
        simpl. apply elem_of_cons. right. exact Hin.
      * destruct (negb _); [discriminate|].
        destruct (IH _ Hb) as [Hal Hfr]. simpl in Hal. split; [exact Hal|].
        intros tv Hnotin.
        assert (Hne : tv0 <> tv).
        { intros ->. apply Hnotin. simpl. apply elem_of_cons. left. reflexivity. }
        destruct (Hfr tv) as [Hp Hs].
        { intros Hin. apply Hnotin. simpl. apply elem_of_cons. right. exact Hin. }
        simpl in Hp, Hs.
        rewrite lookup_insert_ne in Hp by exact Hne.
        rewrite lookup_insert_ne in Hs by exact Hne.
        split; assumption.
Qed.


(** *** The memo table *)

Lemma fresh_alignment_ext (ri0 ri : SchedulerRuntimeInfo) (tv : positive) :
  input_ptrs_ ri = input_ptrs_ ri0 ->
  input_discontig_strides_ ri = input_discontig_strides_ ri0 ->
  fresh_alignment ri tv = fresh_alignment ri0 tv.
Proof.
  intros Hp Hs. unfold fresh_alignment, ptrOf. rewrite Hp, Hs. reflexivity.
Qed.

Lemma getAlignmentSize_unfold (ri : SchedulerRuntimeInfo) (tv : positive) :
  getAlignmentSize ri tv =
  match alignment_map_ ri !! tv with
  | Some a => Some (a, ri)
  | None =>
      a ← fresh_alignment ri tv;
      Some (a, mkSchedulerRuntimeInfo (index_type_ ri) (input_ptrs_ ri)
                 (input_discontig_strides_ ri)
                 (<[tv := a]> (alignment_map_ ri)))
  end.
Proof.
  unfold getAlignmentSize, fresh_alignment.
  destruct (alignment_map_ ri !! tv); [reflexivity|].
  destruct (computeAlignmentSize (ptrOf ri tv)); reflexivity.
Qed.

Lemma getAlignmentSize_preserves (ri0 ri ri' : SchedulerRuntimeInfo)
    (tv : positive) (a : N) :
  memo_ok ri0 ri -> getAlignmentSize ri tv = Some (a, ri') -> memo_ok ri0 ri'.
Proof.
  intros (Hp & Hs & Hmemo) Hcall. rewrite getAlignmentSize_unfold in Hcall.
  destruct (alignment_map_ ri !! tv) as [a1 |] eqn:Hlook.
  - injection Hcall as <- <-. repeat split; assumption.
  - rewrite (fresh_alignment_ext ri0 ri tv Hp Hs) in Hcall.
    destruct (fresh_alignment ri0 tv) as [a1 |] eqn:Hfresh; [|discriminate].
    simpl in Hcall. injection Hcall as <- <-.
    repeat split; simpl; try assumption.
    intros tv' a' Hl. destruct (decide (tv = tv')) as [<- | Hne].
    + rewrite lookup_insert_eq in Hl. injection Hl as <-. exact Hfresh.
    + rewrite lookup_insert_ne in Hl by exact Hne. exact (Hmemo _ _ Hl).
Qed.

Lemma reachable_memo_ok (ri0 ri : SchedulerRuntimeInfo) :
  alignment_map_ ri0 = ∅ -> reachable ri0 ri -> memo_ok ri0 ri.
Proof.
  intros Hempty Hreach. induction Hreach as [| ri tv a ri' Hreach IH Hcall].
  - repeat split. intros tv a Hl. rewrite Hempty in Hl.
    rewrite lookup_empty in Hl. discriminate.
  - exact (getAlignmentSize_preserves _ _ _ _ _ IH Hcall).
Qed.

Lemma getAlignmentSize_memo (ri0 ri : SchedulerRuntimeInfo) (tv : positive) (a : N) :
  memo_ok ri0 ri -> fresh_alignment ri0 tv = Some a ->
  exists ri', getAlignmentSize ri tv = Some (a, ri') /\
              getAlignmentSize ri' tv = Some (a, ri').
Proof.
  intros (Hp & Hs & Hmemo) Hfresh.
  rewrite getAlignmentSize_unfold.
  destruct (alignment_map_ ri !! tv) as [a1 |] eqn:Hlook.
  - rewrite (Hmemo _ _ Hlook) in Hfresh. injection Hfresh as ->.
    exists ri. split; [reflexivity|].
    rewrite getAlignmentSize_unfold, Hlook. reflexivity.
  - rewrite (fresh_alignment_ext ri0 ri tv Hp Hs), Hfresh. simpl.
    eexists. split; [reflexivity|].
    rewrite getAlignmentSize_unfold. simpl.
    rewrite lookup_insert_eq. reflexivity.
Qed.

Lemma new_alignment_map_empty (inputs : list FusionInput)
    (forced : option PrimDataType) (kt : PrimDataType)
    (ri0 : SchedulerRuntimeInfo) :
  newSchedulerRuntimeInfo inputs forced kt = Some ri0 -> alignment_map_ ri0 = ∅.
Proof.
  intros Hnew. unfold newSchedulerRuntimeInfo in Hnew.
  destruct (bind_inputs_frame _ _ _ Hnew) as [Hal _]. exact Hal.
Qed.

(** *** Alignment of fusion inputs *)




(** *** Tensors that are not fusion inputs *)

(** C10: for a tensor that is not a fusion input, [ptrOf] returns the maximum
    alignment size, 16, and [getAlignmentSize] returns 16, in every state of
    the run-time information. *)
Theorem getAlignmentSize_not_fusion_input
    (inputs : list FusionInput) (forced : option PrimDataType)
    (kt : PrimDataType) (ri0 ri : SchedulerRuntimeInfo) (tv : positive) :
  tv ∉ map input_val inputs ->
  newSchedulerRuntimeInfo inputs forced kt = Some ri0 ->
  reachable ri0 ri ->
  ptrOf ri tv = 16%N /\
  exists ri' : SchedulerRuntimeInfo, getAlignmentSize ri tv = Some (16%N, ri').
Proof.
  intros Hnotin Hnew Hreach.
  pose proof (new_alignment_map_empty _ _ _ _ Hnew) as Hempty.
  pose proof (reachable_memo_ok _ _ Hempty Hreach) as Hok.
  unfold newSchedulerRuntimeInfo in Hnew.
  destruct (bind_inputs_frame _ _ _ Hnew) as [_ Hfr].
  destruct (Hfr tv Hnotin) as [Hp Hs]. simpl in Hp, Hs.
  rewrite lookup_empty in Hp. rewrite lookup_empty in Hs.
  assert (Hfresh : fresh_alignment ri0 tv = Some 16%N).
  { unfold fresh_alignment, ptrOf. rewrite Hp, Hs. reflexivity. }
  split.
  - destruct Hok as (Hptrs & _). unfold ptrOf. rewrite Hptrs, Hp. reflexivity.
  - destruct (getAlignmentSize_memo _ _ _ _ Hok Hfresh) as (ri' & H1 & _).
    exists ri'. exact H1.
Qed.

Lemma getAlignmentSize_not_fusion_input_witness :
  let inputs :=
    [TensorInput 1%positive false 4 (mkTensorMetaData 40 [3; 4] [8; 1])] in
  exists ri0 : SchedulerRuntimeInfo,
    (2%positive ∉ map input_val inputs) /\
    newSchedulerRuntimeInfo inputs None Int32 = Some ri0 /\
    reachable ri0 ri0 /\
    ptrOf ri0 2%positive = 16%N /\
    exists ri' : SchedulerRuntimeInfo,
      getAlignmentSize ri0 2%positive = Some (16%N, ri').
Proof.
  intros inputs. eexists.
  assert (Hnotin : 2%positive ∉ map input_val inputs).
  { simpl. intros Hin. apply list_elem_of_singleton in Hin. discriminate Hin. }
  assert (Hnew : newSchedulerRuntimeInfo inputs None Int32 = Some _)
    by reflexivity.
  split; [exact Hnotin|]. split; [exact Hnew|]. split; [apply reachable_new|].
  exact (getAlignmentSize_not_fusion_input inputs None Int32 _ _ 2%positive
           Hnotin Hnew (reachable_new _)).
Defined.

End RuntimeInfoFacts.

Module RegistryFacts.
Import Utils RuntimeInfo Registry.

Section WithSchedulers.
Context `{Schedulers}.

Lemma canSchedule_total (sh : ScheduleHeuristic) (fusion : Fusion)
    (ri : SchedulerRuntimeInfo) (dc : option HeuristicSummary) :
  exists b : bool, canSchedule sh fusion ri dc = Some b.
Proof.
  destruct sh; simpl; unfold checkCanSchedule; simpl;
    try (eexists; reflexivity);
    destruct dc; try (eexists; reflexivity);
    repeat match goal with
           | |- context [if ?c then _ else _] => destruct c
           end; eexists; reflexivity.
Qed.

Lemma canSchedule_accepts (sh : ScheduleHeuristic) (fusion : Fusion)
    (ri : SchedulerRuntimeInfo) :
  canSchedule sh fusion ri None = Some true <-> accepts sh fusion ri.
Proof.
  unfold accepts.
  destruct sh; simpl; unfold checkCanSchedule; simpl;
    try (split; [intros [= ->]; reflexivity | intros ->; reflexivity]);
    destruct (hasOpsOfType [SdpaFwdOp; SdpaBwdOp] fusion);
    destruct (hasOpsOfType [MatmulOp; LinearOp; MmaOp] fusion);
    destruct (isConnectedFusionGraph fusion);
    destruct (hasSelfMapping fusion);
    simpl;
    repeat match goal with
           | |- context [canScheduleCompileTime ?s fusion] =>
               destruct (canScheduleCompileTime s fusion)
           | |- context [canScheduleRunTime ?s fusion ri None] =>
               destruct (canScheduleRunTime s fusion ri None)
           end;
    simpl;
    split;
    try (intros [= ]);
    try (intros (? & [? | ?] & ? & ? & ? & ?); discriminate);
    try (repeat split; auto; fail).
Qed.

Lemma proposeHeuristics_loop_spec (table : list ScheduleHeuristic)
    (fusion : Fusion) (ri : SchedulerRuntimeInfo) :
  exists r : option ScheduleHeuristic,
    proposeHeuristics_loop table fusion ri = Some r /\
    match r with
    | Some sh =>
        exists before after : list ScheduleHeuristic,
          table = before ++ sh :: after /\
          accepts sh fusion ri /\
          Forall (fun x => ~ accepts x fusion ri) before
    | None => Forall (fun x => ~ accepts x fusion ri) table
    end.
Proof.
  induction table as [| sh rest IH]; simpl.
  - exists None. split; [reflexivity | constructor].
  - destruct (canSchedule_total sh fusion ri None) as [b Hb]. rewrite Hb.
    destruct b.
    + exists (Some sh). split; [reflexivity|].
      exists [], rest. split; [reflexivity|]. split; [|constructor].
      apply canSchedule_accepts. exact Hb.
    + assert (Hrej : ~ accepts sh fusion ri).
      { intros Hacc. apply canSchedule_accepts in Hacc. congruence. }
      destruct IH as (r & Hr & Hspec). exists r. split; [exact Hr|].
      destruct r as [sh' |].
      * destruct Hspec as (before & after & -> & Hacc & Hbefore).
        exists (sh :: before), after. split; [reflexivity|].
        split; [exact Hacc | constructor; assumption].
      * constructor; assumption.
Qed.

Lemma all_heuristics_listed (sh : ScheduleHeuristic) :
  sh ∈ all_heuristics_in_priority_order.
Proof. destruct sh; unfold all_heuristics_in_priority_order; set_solver. Qed.

(** C3 (as amended): [proposeHeuristics] walks the kinds in the order
    ExprEval, NoOp, Matmul, Transpose, InnerPersistent, OuterPersistent,
    InnerOuterPersistent, Reduction, PointWise and returns the first kind
    that [canSchedule] accepts: ExprEval on its compile-time gate alone, any
    other kind when no early rejection applies (no SDPA op, no matmul op
    unless the kind is Matmul, connected graph, no self mapping) and both of
    its gates return true.  It returns no heuristic exactly when no kind is
    accepted. *)
Theorem proposeHeuristics_first_accepted (fusion : Fusion)
    (ri : SchedulerRuntimeInfo) :
  exists r : option ScheduleHeuristic,
    proposeHeuristics fusion ri = Some r /\
    match r with
    | Some sh =>
        exists before after : list ScheduleHeuristic,
          [ExprEval; NoOp; Matmul; Transpose; InnerPersistent;
           OuterPersistent; InnerOuterPersistent; Reduction; PointWise]
          = before ++ sh :: after /\
          accepts sh fusion ri /\
          Forall (fun x => ~ accepts x fusion ri) before
    | None => forall sh : ScheduleHeuristic, ~ accepts sh fusion ri
    end.
Proof.
  unfold proposeHeuristics.
  destruct (proposeHeuristics_loop_spec all_heuristics_in_priority_order
              fusion ri) as (r & Hr & Hspec).
  exists r. split; [exact Hr|].
  destruct r as [sh |]; [exact Hspec|].
  intros sh. rewrite Forall_forall in Hspec.
  apply Hspec, all_heuristics_listed.
Qed.

(** C4 (as amended): when no data cache is supplied, [canSchedule] returns
    false, whatever the gates of the schedulers answer, for every scheduler
    other than ExprEval on a fusion with an SDPA op, and for every scheduler
    other than Matmul and ExprEval on a fusion with a MatmulOp, LinearOp or
    MmaOp. *)
Theorem canSchedule_early_no (sh : ScheduleHeuristic) (fusion : Fusion)
    (ri : SchedulerRuntimeInfo) :
  sh <> ExprEval ->
  hasOpsOfType [SdpaFwdOp; SdpaBwdOp] fusion = true \/
  (sh <> Matmul /\ hasOpsOfType [MatmulOp; LinearOp; MmaOp] fusion = true) ->
  canSchedule sh fusion ri None = Some false.
Proof.
  intros Hne Hops.
  destruct sh; try congruence; simpl; unfold checkCanSchedule; simpl;
    destruct (hasOpsOfType [SdpaFwdOp; SdpaBwdOp] fusion);
    try reflexivity;
    destruct Hops as [Hs | [Hm Hops]]; try discriminate; try congruence;
    rewrite Hops; reflexivity.
Qed.

End WithSchedulers.

Lemma canSchedule_early_no_witness :
  PointWise <> ExprEval /\
  (hasOpsOfType [SdpaFwdOp; SdpaBwdOp] (mkFusion [OtherOp; MatmulOp]) = true \/
   (PointWise <> Matmul /\
    hasOpsOfType [MatmulOp; LinearOp; MmaOp] (mkFusion [OtherOp; MatmulOp])
    = true)) /\
  @canSchedule permissive_schedulers PointWise (mkFusion [OtherOp; MatmulOp])
    empty_runtime_info None = Some false.
Proof.
  assert (H1 : PointWise <> ExprEval) by discriminate.
  assert (H2 : hasOpsOfType [SdpaFwdOp; SdpaBwdOp]
                 (mkFusion [OtherOp; MatmulOp]) = true \/
               (PointWise <> Matmul /\
                hasOpsOfType [MatmulOp; LinearOp; MmaOp]
                  (mkFusion [OtherOp; MatmulOp]) = true)).
  { right. split; [discriminate | reflexivity]. }
  split; [exact H1|]. split; [exact H2|].
  exact (@canSchedule_early_no permissive_schedulers PointWise
           (mkFusion [OtherOp; MatmulOp]) empty_runtime_info H1 H2).
Defined.

(** C4 (counterexample): a fusion made of a single MatmulOp whose ExprEval
    compile-time gate answers yes is accepted for ExprEval, a scheduler other
    than Matmul: the early rejection is never consulted for ExprEval. *)
Lemma canSchedule_matmul_op_expr_eval :
  hasOpsOfType [MatmulOp; LinearOp; MmaOp] (mkFusion [MatmulOp]) = true /\
  ExprEval <> Matmul /\
  @canSchedule permissive_schedulers ExprEval (mkFusion [MatmulOp])
    empty_runtime_info None = Some true.
Proof. split; [reflexivity|]. split; [discriminate | reflexivity]. Qed.

(** C3 (counterexample): both gates of the pointwise scheduler return true,
    yet the connectivity check rejects the fusion before they are consulted
    and no heuristic is proposed. *)
Lemma proposeHeuristics_none_despite_gates :
  @canScheduleCompileTime pointwise_only_disconnected PointWise
    (mkFusion [OtherOp; OtherOp]) = true /\
  @canScheduleRunTime pointwise_only_disconnected PointWise
    (mkFusion [OtherOp; OtherOp]) empty_runtime_info None = true /\
  @proposeHeuristics pointwise_only_disconnected
    (mkFusion [OtherOp; OtherOp]) empty_runtime_info = Some None.
Proof. repeat split. Qed.

End RegistryFacts.

Module PointwiseFacts.
Import Utils Pointwise.

(** *** The reference tensor *)

Lemma nRootDims_nonneg (tv : TensorView) : 0 <= nRootDims tv.
Proof. unfold nRootDims. lia. Qed.

Lemma best_of_skip (dm : DomainMap) (m : Z) (pre : list TensorView)
    (o : TensorView) (result : option TensorView) (max_dims : Z) :
  best_of dm m pre result max_dims ->
  eligible dm m o = false ->
  best_of dm m (pre ++ [o]) result max_dims.
Proof.
  intros Hbest Hel. destruct result as [r |]; simpl in *.
  - destruct Hbest as (Hmax & i & Hi & Hr & Hle & Hfirst).
    split; [exact Hmax|]. exists i. split; [apply lookup_app_l_Some, Hi|].
    split; [exact Hr|]. split.
    + intros j o' Hj Ho'. apply lookup_snoc_Some in Hj as [[_ Hj] | [_ <-]].
      * exact (Hle _ _ Hj Ho').
      * congruence.
    + intros j o' Hj Ho' Heq. apply lookup_snoc_Some in Hj as [[_ Hj] | [_ <-]].
      * exact (Hfirst _ _ Hj Ho' Heq).
      * congruence.
  - destruct Hbest as (Hmax & Hnone). split; [exact Hmax|].
    intros j o' Hj. apply lookup_snoc_Some in Hj as [[_ Hj] | [_ <-]].
    + exact (Hnone _ _ Hj).
    + exact Hel.
Qed.

Lemma best_of_keep (dm : DomainMap) (m : Z) (pre : list TensorView)
    (o : TensorView) (result : option TensorView) (max_dims : Z) :
  best_of dm m pre result max_dims ->
  eligible dm m o = true ->
  nRootDims o <= max_dims ->
  best_of dm m (pre ++ [o]) result max_dims.
Proof.
  intros Hbest Hel Hn. destruct result as [r |]; simpl in *.
  - destruct Hbest as (Hmax & i & Hi & Hr & Hle & Hfirst).
    split; [exact Hmax|]. exists i. split; [apply lookup_app_l_Some, Hi|].
    split; [exact Hr|]. split.
    + intros j o' Hj Ho'. apply lookup_snoc_Some in Hj as [[_ Hj] | [_ <-]].
      * exact (Hle _ _ Hj Ho').
      * lia.
    + intros j o' Hj Ho' Heq. apply lookup_snoc_Some in Hj as [[_ Hj] | [-> _]].
      * exact (Hfirst _ _ Hj Ho' Heq).
      * apply lookup_lt_Some in Hi. lia.
  - destruct Hbest as (-> & _). pose proof (nRootDims_nonneg o). lia.
Qed.

Lemma best_of_replace (dm : DomainMap) (m : Z) (pre : list TensorView)
    (o : TensorView) (result : option TensorView) (max_dims : Z) :
  best_of dm m pre result max_dims ->
  eligible dm m o = true ->
  max_dims < nRootDims o ->
  best_of dm m (pre ++ [o]) (Some o) (nRootDims o).
Proof.
  intros Hbest Hel Hn. simpl. split; [reflexivity|].
  exists (length pre). split.
  { apply lookup_snoc_Some. right. split; reflexivity. }
  split; [exact Hel|].
  assert (Hearlier : forall (j : nat) (o' : TensorView),
             pre !! j = Some o' -> eligible dm m o' = true ->
             nRootDims o' <= max_dims).
  { intros j o' Hj Ho'. destruct result as [r |]; simpl in Hbest.
    - destruct Hbest as (-> & i & _ & _ & Hle & _). exact (Hle _ _ Hj Ho').
    - destruct Hbest as (_ & Hnone). rewrite (Hnone _ _ Hj) in Ho'. discriminate. }
  split.
  - intros j o' Hj Ho'. apply lookup_snoc_Some in Hj as [[_ Hj] | [_ <-]].
    + pose proof (Hearlier _ _ Hj Ho'). lia.
    + lia.
  - intros j o' Hj Ho' Heq. apply lookup_snoc_Some in Hj as [[_ Hj] | [-> _]].
    + pose proof (Hearlier _ _ Hj Ho'). lia.
    + lia.
Qed.

Lemma findReference_loop_best (dm : DomainMap) (m : Z)
    (outs pre : list TensorView) (result : option TensorView) (max_dims : Z) :
  best_of dm m pre result max_dims ->
  exists max_dims' : Z,
    best_of dm m (pre ++ outs)
      (findReference_loop dm m outs result max_dims) max_dims'.
Proof.
  revert pre result max_dims.
  induction outs as [| o rest IH]; intros pre result max_dims Hbest; simpl.
  - exists max_dims. rewrite app_nil_r. exact Hbest.
  - replace (pre ++ o :: rest) with ((pre ++ [o]) ++ rest)
      by (rewrite <- app_assoc; reflexivity).
    destruct (eligible dm m o) eqn:Hel.
    + destruct (Z.gtb_spec (nRootDims o) max_dims) as [Hgt | Hle].
      * apply IH. apply (best_of_replace dm m pre o result max_dims);
          [exact Hbest | exact Hel | lia].
      * apply IH. apply best_of_keep; assumption.
    + apply IH. apply best_of_skip; assumption.
Qed.

(** C6 (as amended): [findReferenceTensorView] returns, among the fusion
    outputs that are valid references, satisfy the minimum size and are not
    fusion inputs, the one with the most non-reduction logical dimensions,
    and of several such the one with the smallest output index; it returns
    no tensor exactly when no output qualifies. *)
Theorem findReferenceTensorView_spec (dm : DomainMap) (minimum_num_axes : Z) :
  let outs := filterByType_TensorView (outputs (fusion_ dm)) in
  match findReferenceTensorView dm minimum_num_axes with
  | Some r =>
      exists i : nat,
        outs !! i = Some r /\
        eligible dm minimum_num_axes r = true /\
        (forall (j : nat) (o : TensorView),
            outs !! j = Some o -> eligible dm minimum_num_axes o = true ->
            nRootDims o <= nRootDims r) /\
        (forall (j : nat) (o : TensorView),
            outs !! j = Some o -> eligible dm minimum_num_axes o = true ->
            nRootDims o = nRootDims r -> (i <= j)%nat)
  | None =>
      forall (j : nat) (o : TensorView),
        outs !! j = Some o -> eligible dm minimum_num_axes o = false
  end.
Proof.
  intros outs. unfold findReferenceTensorView. fold outs.
  destruct (findReference_loop_best dm minimum_num_axes outs [] None (-1))
    as (max_dims' & Hbest).
  { simpl. split; [reflexivity|]. intros j o Hj. rewrite lookup_nil in Hj.
    discriminate. }
  simpl in Hbest.
  destruct (findReference_loop dm minimum_num_axes outs None (-1)) as [r |];
    simpl in Hbest.
  - destruct Hbest as (_ & i & Hrest). exists i. exact Hrest.
  - destruct Hbest as (_ & Hnone). exact Hnone.
Qed.

(** C6 (counterexample): the output with the most non-reduction logical
    dimensions is a fusion input, which the loop skips; the reference is the
    smaller output. *)
Lemma findReferenceTensorView_skips_larger_output :
  findReferenceTensorView passthrough_domain_map 0 = Some computed_output /\
  TensorVal passthrough_output ∈ outputs (fusion_ passthrough_domain_map) /\
  nRootDims computed_output < nRootDims passthrough_output.
Proof.
  split; [reflexivity|]. split; [|reflexivity].
  simpl. apply list_elem_of_here.
Qed.

(** *** The break-point search *)

Lemma mul64_double_small (z : Z) :
  - 2 ^ 62 <= z < 2 ^ 62 -> mul64 z 2 = 2 * z.
Proof.
  intros Hz. unfold mul64, wrap64.
  rewrite Z.mod_small; lia.
Qed.

(** The assignments made when a candidate is used. *)
Lemma candidate_Some_inv (p : PointwiseProblem) (i : nat) (st st' : BreakState) :
  candidate p i st = Some st' ->
  st_break_point st' = Z.of_nat i /\
  st_flip_grid_binding st' =
    (lhs_multiple (multiple_at p i) <=? rhs_multiple (multiple_at p i))
    && (l2CacheSize (device p) <? mul64 (right_transfer_size p i) 2) /\
  st_min_total_transfer st' < st_min_total_transfer st.
Proof.
  unfold candidate. intros Hc.
  destruct (negb (breakIsDisjoint p (Z.of_nat i))); [discriminate|].
  destruct (div64 (n_elems p) (cur_right_elem_count p i) <=? 1);
    [discriminate|].
  match type of Hc with
  | (if (?a >=? ?b) || ?c then _ else _) = _ =>
      destruct (Z.geb_spec a b) as [Hge | Hlt]; [discriminate|];
      destruct c; [discriminate|]
  end.
  simpl in Hc.
  destruct (ceilDiv (cur_right_elem_count p i) (max_unroll_factor p)
            <=? warpSize (device p)); [discriminate|].
  injection Hc as <-. simpl. repeat split. lia.
Qed.

(** The state the search ends in is the initial one or the one assigned by
    the last candidate used. *)
Lemma search_loop_last (p : PointwiseProblem) (indices : list nat)
    (st : BreakState) :
  search_loop p indices st = st \/
  exists (i : nat) (st0 : BreakState),
    i ∈ indices /\ candidate p i st0 = Some (search_loop p indices st).
Proof.
  revert st. induction indices as [| i rest IH]; intros st; simpl.
  - left; reflexivity.
  - destruct (candidate p i st) as [st' |] eqn:Hc.
    + destruct (IH st') as [Heq | (j & st0 & Hj & Hcj)].
      * right. exists i, st. split; [apply list_elem_of_here|].
        rewrite Heq. exact Hc.
      * right. exists j, st0. split; [apply list_elem_of_further, Hj | exact Hcj].
    + destruct (IH st) as [Heq | (j & st0 & Hj & Hcj)].
      * left; exact Heq.
      * right. exists j, st0. split; [apply list_elem_of_further, Hj | exact Hcj].
Qed.

Lemma breakPointSearch_flip (p : PointwiseProblem) :
  st_flip_grid_binding (breakPointSearch p) = true ->
  exists i : nat,
    st_break_point (breakPointSearch p) = Z.of_nat i /\
    lhs_multiple (multiple_at p i) <= rhs_multiple (multiple_at p i) /\
    l2CacheSize (device p) < mul64 (right_transfer_size p i) 2.
Proof.
  unfold breakPointSearch.
  destruct (_ >? _); [|discriminate].
  destruct (search_loop_last p (seq 0 (length (elem_counts p))) initial_state)
    as [-> | (i & st0 & _ & Hc)]; [discriminate|].
  intros Hflip. exists i.
  destruct (candidate_Some_inv p i st0 _ Hc) as (Hbp & Hset & _).
  split; [exact Hbp|].
  rewrite Hset, andb_true_iff, Z.leb_le, Z.ltb_lt in Hflip. exact Hflip.
Qed.

(** C8 (as amended): whenever a candidate break point is used, the loop
    sets [flip_grid_binding] to true if and only if the left side is an outer
    broadcast or a balanced broadcast (the left byte multiple does not exceed
    the right one) and the L2 cache size is below twice the right-side
    transfer size; the break point recorded is the candidate.  The parameters
    returned with a break point [i >= 1] carry the flag of that candidate. *)
Theorem flip_grid_binding_iff (p : PointwiseProblem) :
  (forall (i : nat) (st st' : BreakState),
      candidate p i st = Some st' ->
      st_break_point st' = Z.of_nat i /\
      (st_flip_grid_binding st' = true <->
       (outer_broadcast p i \/ balanced_broadcast p i) /\
       l2CacheSize (device p) < mul64 (right_transfer_size p i) 2)) /\
  (forall (params : PointwiseParams) (i : nat),
      getPointwiseHeuristics p = Some params ->
      break_point params = Z.of_nat i -> (1 <= i)%nat ->
      (flip_grid_binding params = true <->
       (outer_broadcast p i \/ balanced_broadcast p i) /\
       l2CacheSize (device p) < mul64 (right_transfer_size p i) 2)).
Proof.
  assert (Hcand : forall (i : nat) (st st' : BreakState),
             candidate p i st = Some st' ->
             st_break_point st' = Z.of_nat i /\
             (st_flip_grid_binding st' = true <->
              (outer_broadcast p i \/ balanced_broadcast p i) /\
              l2CacheSize (device p) < mul64 (right_transfer_size p i) 2)).
  { intros i st st' Hc.
    destruct (candidate_Some_inv p i st st' Hc) as (Hbp & Hflip & _).
    split; [exact Hbp|].
    rewrite Hflip, andb_true_iff, Z.leb_le, Z.ltb_lt.
    unfold outer_broadcast, balanced_broadcast. lia. }
  split; [exact Hcand|].
  intros params i Hget Hbp Hi. unfold getPointwiseHeuristics in Hget.
  destruct (loop_domain_empty p || (n_elems p =? 0)).
  { injection Hget as <-. cbn in Hbp. lia. }
  destruct (negb (_ =? _)%nat); [discriminate|].
  unfold fillParams in Hget.
  destruct (negb _); [discriminate|].
  destruct (_ && _); [discriminate|].
  injection Hget as <-.
  cbn [break_point flip_grid_binding] in *.
  revert Hbp. unfold breakPointSearch.
  destruct (_ >? _); [|cbn; lia].
  destruct (search_loop_last p (seq 0 (length (elem_counts p))) initial_state)
    as [-> | (j & st0 & _ & Hc)]; [cbn; lia|].
  destruct (Hcand j st0 _ Hc) as (Hj & Hflip).
  intros Hbp. rewrite Hj in Hbp. apply Nat2Z.inj in Hbp. subst j.
  exact Hflip.
Qed.

Lemma flip_grid_binding_iff_witness :
  exists params : PointwiseParams,
    getPointwiseHeuristics balanced_problem = Some params /\
    break_point params = Z.of_nat 1 /\
    (flip_grid_binding params = true <->
     (outer_broadcast balanced_problem 1 \/ balanced_broadcast balanced_problem 1) /\
     l2CacheSize (device balanced_problem)
     < mul64 (right_transfer_size balanced_problem 1) 2).
Proof.
  destruct (getPointwiseHeuristics balanced_problem) as [params |] eqn:Hget;
    [|vm_compute in Hget; discriminate Hget].
  assert (Hbp : break_point params = Z.of_nat 1).
  { vm_compute in Hget. injection Hget as <-. reflexivity. }
  assert (Hi : (1 <= 1)%nat) by lia.
  exists params. split; [reflexivity|]. split; [exact Hbp|].
  exact (proj2 (flip_grid_binding_iff balanced_problem) params 1%nat Hget Hbp Hi).
Defined.

(** C8 (counterexample): with one input broadcast along each dimension the
    byte multiples at break point 1 are equal, 8 and 8: the left side is
    balanced, not an outer broadcast, and the binding is flipped. *)
Lemma flip_grid_binding_balanced_broadcast :
  exists params : PointwiseParams,
    getPointwiseHeuristics balanced_problem = Some params /\
    break_point params = 1 /\
    flip_grid_binding params = true /\
    l2CacheSize (device balanced_problem)
    < mul64 (right_transfer_size balanced_problem 1) 2 /\
    balanced_broadcast balanced_problem 1 /\
    ~ outer_broadcast balanced_problem 1.
Proof.
  eexists. split; [vm_compute; reflexivity|].
  split; [reflexivity|]. split; [reflexivity|].
  split; [vm_compute; reflexivity|].
  split; [reflexivity|].
  unfold outer_broadcast. vm_compute. intros H; discriminate H.
Qed.

(** *** Splitting the grid *)




End PointwiseFacts.

Module LowerUtilsFacts.
Import Utils LowerUtils.

Section WithGpuLower.
Context `{GpuLower}.

Lemma add64_succ_small (z : Z) : 0 <= z < 2 ^ 63 - 1 -> add64 z 1 = z + 1.
Proof.
  intros Hz. unfold add64, wrap64. rewrite Z.mod_small; lia.
Qed.

Lemma alloc_loop_bound (tv : TensorView) (id_map : gmap nat IterDomain)
    (use_id_map : bool) (for_loops : list ForLoop)
    (info info' : BasicAllocInfo) (outer_alloc_found : bool) :
  getComputeAtPosition tv < 2 ^ 63 ->
  0 <= alloc_pos info <= getComputeAtPosition tv ->
  alloc_loop tv id_map use_id_map for_loops info outer_alloc_found = Some info' ->
  alloc_pos info <= alloc_pos info' <= getComputeAtPosition tv.
Proof.
  intros Hca. revert info outer_alloc_found.
  induction for_loops as [| fl rest IH]; intros info found Hpos Hloop;
    simpl in Hloop.
  - injection Hloop as <-. lia.
  - destruct (Z.eqb_spec (alloc_pos info) (getComputeAtPosition tv)) as [Heq | Hne].
    { injection Hloop as <-. lia. }
    destruct (axis tv (alloc_pos info)) as [ax |]; simpl in Hloop; [|discriminate].
    destruct (isReduction ax).
    { destruct (isTerminatingOutput tv); [|discriminate].
      injection Hloop as <-. lia. }
    destruct (bool_decide (getParallelType (iter_domain fl) = Unroll)).
    { injection Hloop as <-. lia. }
    apply IH in Hloop; simpl in *.
    + destruct (areMappedPermissive _ _); [|lia].
      rewrite add64_succ_small in Hloop by lia. lia.
    + destruct (areMappedPermissive _ _); [|lia].
      rewrite add64_succ_small by lia. lia.
Qed.

(** C5: the allocation position computed by [getAllocInformation] never
    exceeds the compute-at position of the tensor, and once the position has
    reached the compute-at position the walk over the for-loops returns
    without changing anything. *)
Theorem getAllocInformation_alloc_pos (tv : TensorView)
    (for_loops : list ForLoop) (id_map : gmap nat IterDomain)
    (use_id_map : bool) (info : BasicAllocInfo) :
  0 <= getComputeAtPosition tv < 2 ^ 63 ->
  getAllocInformation tv for_loops id_map use_id_map = Some info ->
  0 <= alloc_pos info <= getComputeAtPosition tv /\
  forall (loops : list ForLoop) (found : bool),
    alloc_loop tv id_map use_id_map loops
      (mkBasicAllocInfo (init_for_loop info) (alloc_for_loop info)
         (getComputeAtPosition tv)) found
    = Some (mkBasicAllocInfo (init_for_loop info) (alloc_for_loop info)
              (getComputeAtPosition tv)).
Proof.
  intros Hca Hget. split.
  - unfold getAllocInformation in Hget.
    apply alloc_loop_bound in Hget; simpl in *; lia.
  - intros loops found. destruct loops as [| fl rest]; simpl; [reflexivity|].
    rewrite Z.eqb_refl. reflexivity.
Qed.

End WithGpuLower.

Lemma getAllocInformation_alloc_pos_witness :
  0 <= getComputeAtPosition inlined_tensor < 2 ^ 63 /\
  @getAllocInformation lowering_by_name inlined_tensor consumer_loops ∅ false
  = Some (mkBasicAllocInfo
            (Some (mkForLoop 1 (mkIterDomain 1 false Serial)))
            (Some (mkForLoop 1 (mkIterDomain 1 false Serial))) 2) /\
  0 <= 2 <= getComputeAtPosition inlined_tensor.
Proof.
  assert (Hca : 0 <= getComputeAtPosition inlined_tensor < 2 ^ 63)
    by (simpl; lia).
  assert (Hget : @getAllocInformation lowering_by_name inlined_tensor
                   consumer_loops ∅ false
                 = Some (mkBasicAllocInfo
                           (Some (mkForLoop 1 (mkIterDomain 1 false Serial)))
                           (Some (mkForLoop 1 (mkIterDomain 1 false Serial))) 2))
    by (vm_compute; reflexivity).
  split; [exact Hca|]. split; [exact Hget|].
  exact (proj1 (@getAllocInformation_alloc_pos lowering_by_name inlined_tensor
                  consumer_loops ∅ false _ Hca Hget)).
Defined.

End LowerUtilsFacts.

Module UtilsExtra.
Import Utils.

Lemma wrap64_id (z : Z) : - 2 ^ 63 <= z < 2 ^ 63 -> wrap64 z = z.
Proof. intros Hz. unfold wrap64. rewrite Z.mod_small; lia. Qed.

Lemma ceilDiv_quot (a b : Z) :
  0 <= a -> 0 < b -> a + b < 2 ^ 63 -> ceilDiv a b = (a + b - 1) / b.
Proof.
  intros Ha Hb Hsum. unfold ceilDiv, div64, sub64, add64.
  rewrite (wrap64_id (a + b)) by lia.
  rewrite (wrap64_id (a + b - 1)) by lia.
  rewrite Z.quot_div_nonneg by lia.
  apply wrap64_id.
  assert (0 <= (a + b - 1) / b) by (apply Z.div_pos; lia).
  assert ((a + b - 1) / b <= a + b - 1) by (apply Z.div_le_upper_bound; nia).
  lia.
Qed.

(** X1: for a non-negative dividend and a positive divisor whose sum fits
    in 64 bits, [ceilDiv] is the rounded-up quotient: the least [q] with
    [dividend <= q * divisor]. *)
Theorem ceilDiv_least (a b : Z) :
  0 <= a -> 0 < b -> a + b < 2 ^ 63 ->
  a <= ceilDiv a b * b /\
  forall q : Z, a <= q * b -> ceilDiv a b <= q.
Proof.
  intros Ha Hb Hsum. rewrite ceilDiv_quot by assumption.
  pose proof (Z.div_mod (a + b - 1) b ltac:(lia)) as Hdm.
  pose proof (Z.mod_pos_bound (a + b - 1) b Hb) as Hmod.
  split; [nia|].
  intros q Hq.
  apply Z.lt_succ_r. apply Z.div_lt_upper_bound; [lia|]. nia.
Qed.

Lemma ceilDiv_least_witness :
  0 <= 7 /\ 0 < 3 /\ 7 + 3 < 2 ^ 63 /\
  7 <= ceilDiv 7 3 * 3 /\ forall q : Z, 7 <= q * 3 -> ceilDiv 7 3 <= q.
Proof.
  assert (H1 : 0 <= 7) by lia. assert (H2 : 0 < 3) by lia.
  assert (H3 : 7 + 3 < 2 ^ 63) by lia.
  split; [exact H1|]. split; [exact H2|]. split; [exact H3|].
  exact (ceilDiv_least 7 3 H1 H2 H3).
Defined.

(** X2: under the same conditions [roundUpToMultiple] returns the least
    multiple of the divisor that is not below the dividend, and it leaves a
    multiple of the divisor unchanged. *)
Theorem roundUpToMultiple_least (a b : Z) :
  0 <= a -> 0 < b -> a + b < 2 ^ 63 ->
  (b | roundUpToMultiple a b) /\
  a <= roundUpToMultiple a b < a + b /\
  ((b | a) -> roundUpToMultiple a b = a).
Proof.
  intros Ha Hb Hsum. unfold roundUpToMultiple, mul64.
  rewrite ceilDiv_quot by assumption.
  pose proof (Z.div_mod (a + b - 1) b ltac:(lia)) as Hdm.
  pose proof (Z.mod_pos_bound (a + b - 1) b Hb) as Hmod.
  assert (Hrange : a <= (a + b - 1) / b * b < a + b) by nia.
  rewrite wrap64_id by lia.
  split; [exists ((a + b - 1) / b); reflexivity|].
  split; [exact Hrange|].
  intros [k Hk]. subst a.
  assert (Hq : (k * b + b - 1) / b = k).
  { symmetry. apply Z.div_unique with (r := b - 1); lia. }
  rewrite Hq. reflexivity.
Qed.

Lemma roundUpToMultiple_least_witness :
  0 <= 7 /\ 0 < 4 /\ 7 + 4 < 2 ^ 63 /\
  (4 | roundUpToMultiple 7 4) /\ 7 <= roundUpToMultiple 7 4 < 7 + 4 /\
  ((4 | 7) -> roundUpToMultiple 7 4 = 7).
Proof.
  assert (H1 : 0 <= 7) by lia. assert (H2 : 0 < 4) by lia.
  assert (H3 : 7 + 4 < 2 ^ 63) by lia.
  split; [exact H1|]. split; [exact H2|]. split; [exact H3|].
  exact (roundUpToMultiple_least 7 4 H1 H2 H3).
Defined.

(** X3: [wrapDim] succeeds exactly for positions in [-ndim, ndim); the
    result lies in [0, ndim) and is the position itself or the position
    counted from the end. *)
Theorem wrapDim_spec (dim ndim : Z) :
  (- ndim <= dim < ndim ->
   exists r : Z, wrapDim dim ndim = Some r /\ 0 <= r < ndim /\
                 r = (if dim <? 0 then dim + ndim else dim)) /\
  (~ (- ndim <= dim < ndim) -> wrapDim dim ndim = None).
Proof.
  unfold wrapDim. split.
  - intros Hr. destruct (Z.ltb_spec dim 0).
    + exists (dim + ndim).
      destruct (Z.leb_spec 0 (dim + ndim)); [|lia].
      destruct (Z.ltb_spec (dim + ndim) ndim); [|lia].
      simpl. repeat split; lia.
    + exists dim.
      destruct (Z.leb_spec 0 dim); [|lia].
      destruct (Z.ltb_spec dim ndim); [|lia].
      simpl. repeat split; lia.
  - intros Hr. destruct (Z.ltb_spec dim 0).
    + destruct (Z.leb_spec 0 (dim + ndim)); simpl; [|reflexivity].
      destruct (Z.ltb_spec (dim + ndim) ndim); [lia | reflexivity].
    + destruct (Z.leb_spec 0 dim); simpl; [|reflexivity].
      destruct (Z.ltb_spec dim ndim); [lia | reflexivity].
Qed.

(** Values are compared modulo [2^64]. *)
Lemma wrap64_mod (x : Z) : wrap64 x mod 2 ^ 64 = x mod 2 ^ 64.
Proof.
  unfold wrap64. rewrite Zminus_mod_idemp_l. f_equal. lia.
Qed.

Lemma wrap64_congr (x y : Z) :
  x mod 2 ^ 64 = y mod 2 ^ 64 -> wrap64 x = wrap64 y.
Proof.
  intros H. unfold wrap64.
  rewrite <- (Zplus_mod_idemp_l x), H, Zplus_mod_idemp_l. reflexivity.
Qed.

Lemma wrap64_idem (x : Z) : wrap64 (wrap64 x) = wrap64 x.
Proof. apply wrap64_congr, wrap64_mod. Qed.

Lemma pow_congr (x y k : Z) :
  0 <= k -> x mod 2 ^ 64 = y mod 2 ^ 64 ->
  x ^ k mod 2 ^ 64 = y ^ k mod 2 ^ 64.
Proof.
  intros Hk Hxy. revert k Hk.
  apply natlike_ind; [reflexivity|].
  intros k Hk IH. rewrite !Z.pow_succ_r by exact Hk.
  rewrite (Zmult_mod x), (Zmult_mod y), Hxy, IH. reflexivity.
Qed.

Lemma land_1_odd (b : Z) : negb (Z.land b 1 =? 0) = Z.odd b.
Proof.
  change 1 with (Z.ones 1). rewrite Z.land_ones by lia.
  change (2 ^ 1) with 2. rewrite Zmod_odd.
  destruct (Z.odd b); reflexivity.
Qed.

Lemma pow_loop_spec (fuel : nat) (a b r : Z) :
  0 <= b < 2 ^ Z.of_nat fuel -> b < 2 ^ 63 -> wrap64 r = r ->
  pow_loop fuel a b r = Some (wrap64 (r * a ^ b)).
Proof.
  revert a b r. induction fuel as [| fuel IH]; intros a b r Hb Hb63 Hr.
  - assert (b = 0) by (change (2 ^ Z.of_nat 0) with 1 in Hb; lia). subst b.
    simpl. rewrite Z.mul_1_r, Hr. reflexivity.
  - cbn [pow_loop]. destruct (Z.eqb_spec b 0) as [-> | Hnz].
    { rewrite Z.pow_0_r, Z.mul_1_r, Hr. reflexivity. }
    assert (Hhalf : div64 b 2 = b / 2).
    { unfold div64. rewrite Z.quot_div_nonneg by lia.
      apply wrap64_id. pose proof (Z.div_pos b 2).
      assert (b / 2 <= b) by (apply Z.div_le_upper_bound; lia). lia. }
    rewrite Hhalf, land_1_odd.
    rewrite Nat2Z.inj_succ, Z.pow_succ_r in Hb by lia.
    rewrite IH.
    + f_equal. apply wrap64_congr.
      pose proof (Z.div_mod b 2 ltac:(lia)) as Hdm.
      rewrite Zmod_odd in Hdm.
      assert (Hsq : (mul64 a a) ^ (b / 2) mod 2 ^ 64
                    = (a * a) ^ (b / 2) mod 2 ^ 64).
      { apply pow_congr; [apply Z.div_pos; lia|]. apply wrap64_mod. }
      assert (Hpow : a ^ b = (if Z.odd b then a else 1) * (a * a) ^ (b / 2)).
      { rewrite Hdm at 1. rewrite Z.pow_add_r, Z.pow_mul_r.
        - change (a ^ 2) with (a * (a * 1)). rewrite Z.mul_1_r.
          destruct (Z.odd b); [rewrite Z.pow_1_r | rewrite Z.pow_0_r]; ring.
        - lia.
        - apply Z.div_pos; lia.
        - apply Z.mul_nonneg_nonneg; [lia | apply Z.div_pos; lia].
        - destruct (Z.odd b); lia. }
      rewrite Hpow.
      destruct (Z.odd b).
      * unfold mul64 at 1.
        rewrite Zmult_mod, wrap64_mod, Hsq, <- Zmult_mod. f_equal. ring.
      * rewrite Zmult_mod, Hsq, <- Zmult_mod. f_equal. ring.
    + split; [apply Z.div_pos; lia|].
      apply Z.div_lt_upper_bound; lia.
    + assert (b / 2 <= b) by (apply Z.div_le_upper_bound; lia). lia.
    + destruct (Z.odd b); [apply wrap64_idem | exact Hr].
Qed.

(** X4: for a non-negative exponent [pow<int64_t>] terminates and returns
    the power [a ^ b] in 64-bit wrap-around arithmetic. *)
Theorem pow_nonneg_exponent (a b : Z) :
  0 <= b < 2 ^ 63 -> pow a b = Some (wrap64 (a ^ b)).
Proof.
  intros Hb. unfold pow.
  destruct (Z.ltb_spec b 0) as [? | _]; [lia|].
  rewrite pow_loop_spec.
  - rewrite Z.mul_1_l. reflexivity.
  - split; [lia|].
    apply Z.lt_le_trans with (m := 2 ^ 63); [lia|].
    apply Z.pow_le_mono_r; lia.
  - lia.
  - reflexivity.
Qed.

Lemma pow_nonneg_exponent_witness :
  0 <= 10 < 2 ^ 63 /\ pow 3 10 = Some (wrap64 (3 ^ 10)).
Proof.
  assert (H : 0 <= 10 < 2 ^ 63) by lia.
  split; [exact H | exact (pow_nonneg_exponent 3 10 H)].
Defined.

(** X5: [switch_pair] is injective on pairs of enumerators whose values
    fit in 16 bits. *)
Theorem switch_pair_injective (t1 t2 t1' t2' : N) :
  (t1 < 2 ^ 16)%N -> (t2 < 2 ^ 16)%N -> (t1' < 2 ^ 16)%N -> (t2' < 2 ^ 16)%N ->
  switch_pair t1 t2 = switch_pair t1' t2' -> t1 = t1' /\ t2 = t2'.
Proof.
  intros H1 H2 H1' H2'. unfold switch_pair, wrap_u32.
  rewrite !N.shiftl_mul_pow2.
  change (2 ^ 16)%N with 65536%N in *. change (2 ^ 32)%N with 4294967296%N.
  rewrite (N.mod_small (t1 * 65536)) by lia.
  rewrite (N.mod_small (t1' * 65536)) by lia.
  rewrite (N.mod_small (t1 * 65536 + t2)) by lia.
  rewrite (N.mod_small (t1' * 65536 + t2')) by lia.
  lia.
Qed.

Lemma switch_pair_injective_witness :
  (3 < 2 ^ 16)%N /\ (5 < 2 ^ 16)%N /\
  switch_pair 3 5 = switch_pair 3 5 /\ 3%N = 3%N /\ 5%N = 5%N.
Proof.
  assert (H3 : (3 < 2 ^ 16)%N) by reflexivity.
  assert (H5 : (5 < 2 ^ 16)%N) by reflexivity.
  split; [exact H3|]. split; [exact H5|]. split; [reflexivity|].
  exact (switch_pair_injective 3 5 3 5 H3 H5 H3 H5 eq_refl).
Defined.

Lemma lxor_cancel_l (h x y : N) : N.lxor h x = N.lxor h y -> x = y.
Proof.
  intros H.
  assert (Hx : x = N.lxor h (N.lxor h x)).
  { rewrite <- N.lxor_assoc, N.lxor_nilpotent, N.lxor_0_l. reflexivity. }
  rewrite Hx, H, <- N.lxor_assoc, N.lxor_nilpotent, N.lxor_0_l. reflexivity.
Qed.

Lemma add_mod_cancel (n1 n2 k : N) :
  (n1 < 2 ^ 64)%N -> (n2 < 2 ^ 64)%N ->
  ((n1 + k) mod 2 ^ 64 = (n2 + k) mod 2 ^ 64)%N -> n1 = n2.
Proof.
  intros H1 H2 H.
  pose proof (N.div_mod (n1 + k) (2 ^ 64) ltac:(discriminate)) as D1.
  pose proof (N.div_mod (n2 + k) (2 ^ 64) ltac:(discriminate)) as D2.
  pose proof (N.mod_lt (n1 + k) (2 ^ 64) ltac:(discriminate)) as L1.
  pose proof (N.mod_lt (n2 + k) (2 ^ 64) ltac:(discriminate)) as L2.
  rewrite H in D1.
  change (2 ^ 64)%N with 18446744073709551616%N in *.
  lia.
Qed.

(** X6: for a fixed old hash value, [hashCombine] is injective in the new
    hash: two different 64-bit values never combine to the same result. *)
Theorem hashCombine_injective (hash n1 n2 : N) :
  (n1 < 2 ^ 64)%N -> (n2 < 2 ^ 64)%N ->
  hashCombine hash n1 = hashCombine hash n2 -> n1 = n2.
Proof.
  intros H1 H2 H. unfold hashCombine in H. apply lxor_cancel_l in H.
  unfold wrap_u64 in H.
  rewrite !(N.Div0.add_mod_idemp_l) in H.
  rewrite <- !N.add_assoc in H.
  rewrite !(N.Div0.add_mod_idemp_l) in H.
  rewrite <- !N.add_assoc in H.
  exact (add_mod_cancel n1 n2 _ H1 H2 H).
Qed.

Lemma hashCombine_injective_witness :
  (7 < 2 ^ 64)%N /\ hashCombine 42 7 = hashCombine 42 7 /\ 7%N = 7%N.
Proof.
  assert (H7 : (7 < 2 ^ 64)%N) by reflexivity.
  split; [exact H7|]. split; [reflexivity|].
  exact (hashCombine_injective 42 7 7 H7 H7 eq_refl).
Defined.

(** X7: feeding the (size, stride) pairs of a tensor with non-negative
    strides to a fresh [KernelIndexTypeCompute] succeeds, and, as long as the
    sum does not overflow, the type returned last is [Int32] exactly when
    the sum of [(size - 1) * stride] over the dimensions of size above one
    is at most [2^30 - 1]. *)
Theorem addDims_index_type (dims : list (Z * Z)) :
  Forall (fun d => 0 <= d.2 /\ d.1 < 2 ^ 63) dims ->
  most_positive_index dims < 2 ^ 63 ->
  exists (k : KernelIndexTypeCompute) (t : PrimDataType),
    addDims newKernelIndexTypeCompute dims = Some (k, t) /\
    tensor_most_positive_index_ k = most_positive_index dims /\
    (t = Int32 <-> most_positive_index dims <= 2 ^ 30 - 1).
Proof.
  intros Hdims Hsum.
  rewrite (UtilsFacts.addDims_accumulates dims newKernelIndexTypeCompute Hdims)
    by (simpl; lia).
  cbn [newKernelIndexTypeCompute tensor_most_positive_index_]. rewrite Z.add_0_l.
  eexists. eexists. split; [reflexivity|]. split; [reflexivity|].
  unfold getType. cbn [tensor_most_positive_index_].
  change most_positive_int32_index with (2 ^ 30 - 1).
  destruct (Z.gtb_spec (most_positive_index dims) (2 ^ 30 - 1)).
  - split; [intros Heq; discriminate Heq | lia].
  - split; [lia | reflexivity].
Qed.

Lemma addDims_index_type_witness :
  Forall (fun d => 0 <= d.2 /\ d.1 < 2 ^ 63) [(1024, 1024); (1024, 1)] /\
  most_positive_index [(1024, 1024); (1024, 1)] < 2 ^ 63 /\
  exists (k : KernelIndexTypeCompute) (t : PrimDataType),
    addDims newKernelIndexTypeCompute [(1024, 1024); (1024, 1)] = Some (k, t) /\
    tensor_most_positive_index_ k = most_positive_index [(1024, 1024); (1024, 1)] /\
    (t = Int32 <-> most_positive_index [(1024, 1024); (1024, 1)] <= 2 ^ 30 - 1).
Proof.
  assert (H1 : Forall (fun d => 0 <= d.2 /\ d.1 < 2 ^ 63)
                 [(1024, 1024); (1024, 1)])
    by (repeat constructor; simpl; lia).
  assert (H2 : most_positive_index [(1024, 1024); (1024, 1)] < 2 ^ 63)
    by (vm_compute; reflexivity).
  split; [exact H1|]. split; [exact H2|].
  exact (addDims_index_type _ H1 H2).
Defined.

(** X8: [addDim] never lowers the requirement: when the accumulated index is
    non-negative and the update does not overflow, the index does not
    decrease, and once [Int] (64-bit) is required every later call returns
    [Int]. *)
Theorem addDim_never_downgrades (k k' : KernelIndexTypeCompute)
    (size stride : Z) (t : PrimDataType) :
  0 <= tensor_most_positive_index_ k ->
  size < 2 ^ 63 ->
  tensor_most_positive_index_ k + (size - 1) * stride < 2 ^ 63 ->
  addDim k size stride = Some (k', t) ->
  tensor_most_positive_index_ k <= tensor_most_positive_index_ k' /\
  (getType k = Int -> t = Int).
Proof.
  intros Hidx Hsize Hsum. unfold addDim.
  destruct (Z.gtb_spec size 1) as [Hgt | Hle].
  - destruct (Z.geb_spec stride 0) as [Hnn | ?]; [|discriminate].
    destruct (Z.gtb_spec stride 0) as [Hpos | Hzero].
    + intros [= <- <-].
      assert (Hterm : 0 <= (size - 1) * stride) by nia.
      unfold add64, mul64, sub64. cbn [tensor_most_positive_index_].
      rewrite (wrap64_id (size - 1)) by lia.
      rewrite (wrap64_id ((size - 1) * stride)) by lia.
      rewrite (wrap64_id _) by lia.
      split; [lia|].
      unfold getType. cbn [tensor_most_positive_index_].
      destruct (Z.gtb_spec (tensor_most_positive_index_ k)
                  most_positive_int32_index); [|discriminate].
      intros _.
      destruct (Z.gtb_spec (tensor_most_positive_index_ k + (size - 1) * stride)
                  most_positive_int32_index); [reflexivity | lia].
    + intros [= <- <-]. split; [lia | auto].
  - intros [= <- <-]. split; [lia | auto].
Qed.

Lemma addDim_never_downgrades_witness :
  0 <= tensor_most_positive_index_ (mkKernelIndexTypeCompute (2 ^ 30)) /\
  8 < 2 ^ 63 /\
  tensor_most_positive_index_ (mkKernelIndexTypeCompute (2 ^ 30))
  + (8 - 1) * 4 < 2 ^ 63 /\
  addDim (mkKernelIndexTypeCompute (2 ^ 30)) 8 4
  = Some (mkKernelIndexTypeCompute (2 ^ 30 + 28), Int) /\
  2 ^ 30 <= 2 ^ 30 + 28.
Proof.
  assert (H1 : 0 <= tensor_most_positive_index_
                      (mkKernelIndexTypeCompute (2 ^ 30))) by (simpl; lia).
  assert (H2 : 8 < 2 ^ 63) by lia.
  assert (H3 : tensor_most_positive_index_ (mkKernelIndexTypeCompute (2 ^ 30))
               + (8 - 1) * 4 < 2 ^ 63) by (simpl; lia).
  assert (H4 : addDim (mkKernelIndexTypeCompute (2 ^ 30)) 8 4
               = Some (mkKernelIndexTypeCompute (2 ^ 30 + 28), Int))
    by (vm_compute; reflexivity).
  split; [exact H1|]. split; [exact H2|]. split; [exact H3|].
  split; [exact H4|].
  exact (proj1 (addDim_never_downgrades _ _ 8 4 Int H1 H2 H3 H4)).
Defined.

End UtilsExtra.

Module RuntimeInfoExtra.
Import Utils RuntimeInfo.

(** *** Discontiguous strides *)

Lemma foldr_mul_pos (l : list Z) : Forall (fun s => 1 <= s) l -> 1 <= foldr Z.mul 1 l.
Proof.
  induction 1 as [| s l Hs Hl IH]; simpl; [lia | nia].
Qed.

Lemma running_strides_app (e : Z) (l : list Z) (s : Z) :
  running_strides e (l ++ [s]) = running_strides e l ++ [(s, e * foldr Z.mul 1 l)].
Proof.
  revert e. induction l as [| x l IH]; intros e; simpl.
  - rewrite Z.mul_1_r. reflexivity.
  - rewrite IH. f_equal. f_equal. f_equal. f_equal. ring.
Qed.

Lemma foldr_mul_rev (l : list Z) : foldr Z.mul 1 (rev l) = foldr Z.mul 1 l.
Proof.
  induction l as [| x l IH]; simpl; [reflexivity|].
  rewrite foldr_app. simpl. rewrite Z.mul_1_r.
  rewrite <- IH. generalize (rev l). intros r.
  induction r as [| y r IHr]; simpl; [ring|]. rewrite IHr. ring.
Qed.

Lemma contiguous_strides_length (sizes : list Z) :
  length (contiguous_strides sizes) = length sizes.
Proof. induction sizes; simpl; congruence. Qed.

Lemma rev_zip_contiguous (sizes : list Z) :
  rev (zip sizes (contiguous_strides sizes)) = running_strides 1 (rev sizes).
Proof.
  induction sizes as [| s rest IH]; simpl; [reflexivity|].
  rewrite IH, running_strides_app, foldr_mul_rev, Z.mul_1_l. reflexivity.
Qed.

Lemma discontig_loop_running (dtype_size e : Z) (rsizes : list Z) (acc : list N) :
  Forall (fun s => 1 <= s) rsizes -> 1 <= e ->
  e * foldr Z.mul 1 rsizes < 2 ^ 63 ->
  discontig_loop dtype_size (running_strides e rsizes) e acc = acc.
Proof.
  intros Hs. revert e acc.
  induction Hs as [| s rest Hs Hrest IH]; intros e acc He Hprod; simpl;
    [reflexivity|].
  simpl in Hprod.
  pose proof (foldr_mul_pos rest Hrest) as Hpos.
  destruct (Z.leb_spec s 1) as [Hle | Hgt]; simpl.
  - assert (s = 1) by lia. subst s. rewrite Z.mul_1_r.
    apply IH; [exact He | lia].
  - destruct (Z.eqb_spec e 0) as [? | _]; [lia|]. simpl.
    rewrite Z.eqb_refl. simpl.
    unfold mul64. rewrite UtilsExtra.wrap64_id by nia.
    apply IH; nia.
Qed.

(** X9: a densely packed tensor (every size at least one, strides equal to
    the products of the sizes to the right, no overflow) has no
    discontiguous stride. *)
Theorem discontig_strides_contiguous (dtype_size : Z) (ptr : N) (sizes : list Z) :
  Forall (fun s => 1 <= s) sizes ->
  foldr Z.mul 1 sizes < 2 ^ 63 ->
  discontig_strides dtype_size
    (mkTensorMetaData ptr sizes (contiguous_strides sizes)) = [].
Proof.
  intros Hs Hprod. unfold discontig_strides. simpl.
  rewrite rev_zip_contiguous.
  apply discontig_loop_running.
  - apply Forall_rev. exact Hs.
  - lia.
  - rewrite foldr_mul_rev. lia.
Qed.

Lemma discontig_strides_contiguous_witness :
  Forall (fun s => 1 <= s) [2; 1; 3; 4] /\
  foldr Z.mul 1 [2; 1; 3; 4] < 2 ^ 63 /\
  discontig_strides 4
    (mkTensorMetaData 64 [2; 1; 3; 4] (contiguous_strides [2; 1; 3; 4])) = [].
Proof.
  assert (H1 : Forall (fun s => 1 <= s) [2; 1; 3; 4])
    by (repeat constructor; lia).
  assert (H2 : foldr Z.mul 1 [2; 1; 3; 4] < 2 ^ 63) by (vm_compute; reflexivity).
  split; [exact H1|]. split; [exact H2|].
  exact (discontig_strides_contiguous 4 64 _ H1 H2).
Defined.

Lemma discontig_loop_skip (dtype_size : Z) (l1 l2 : list (Z * Z))
    (size stride e : Z) (acc : list N) :
  size <= 1 \/ stride = 0 ->
  discontig_loop dtype_size (l1 ++ (size, stride) :: l2) e acc
  = discontig_loop dtype_size (l1 ++ l2) e acc.
Proof.
  intros Hskip. revert e acc.
  induction l1 as [| [s t] l1 IH]; intros e acc; simpl.
  - assert (Hc : (size <=? 1) || (stride =? 0) = true).
    { apply orb_true_iff. destruct Hskip; [left; lia | right; lia]. }
    rewrite Hc. reflexivity.
  - destruct ((s <=? 1) || (t =? 0)); [apply IH|].
    destruct (negb (t =? e)); apply IH.
Qed.

(** X10: a dimension of size at most one or of stride zero (a broadcast)
    does not contribute: removing it from the sizes and strides leaves the
    discontiguous strides unchanged. *)
Theorem discontig_strides_ignores_broadcast (dtype_size : Z) (ptr : N)
    (s1 s2 t1 t2 : list Z) (size stride : Z) :
  length s1 = length t1 -> length s2 = length t2 ->
  size <= 1 \/ stride = 0 ->
  discontig_strides dtype_size
    (mkTensorMetaData ptr (s1 ++ size :: s2) (t1 ++ stride :: t2))
  = discontig_strides dtype_size (mkTensorMetaData ptr (s1 ++ s2) (t1 ++ t2)).
Proof.
  intros H1 H2 Hskip. unfold discontig_strides. simpl.
  rewrite !zip_with_app by assumption.
  simpl. rewrite !rev_app_distr. simpl. rewrite <- app_assoc. simpl.
  apply discontig_loop_skip. exact Hskip.
Qed.

Lemma discontig_strides_ignores_broadcast_witness :
  length [3] = length [8] /\ length [4] = length [1] /\
  (5 <= 1 \/ 0 = 0) /\
  discontig_strides 4 (mkTensorMetaData 0 ([3] ++ 5 :: [4]) ([8] ++ 0 :: [1]))
  = discontig_strides 4 (mkTensorMetaData 0 ([3] ++ [4]) ([8] ++ [1])).
Proof.
  assert (H1 : length [3] = length [8]) by reflexivity.
  assert (H2 : length [4] = length [1]) by reflexivity.
  assert (H3 : 5 <= 1 \/ 0 = 0) by (right; reflexivity).
  split; [exact H1|]. split; [exact H2|]. split; [exact H3|].
  exact (discontig_strides_ignores_broadcast 4 0 [3] [4] [8] [1] 5 0 H1 H2 H3).
Defined.

(** *** Alignment *)

Lemma computeAlignmentSize_value (p a : N) :
  computeAlignmentSize p = Some a -> alignment_value a.
Proof.
  rewrite RuntimeInfoFacts.computeAlignmentSize_unfold. intros [= <-].
  unfold alignment_value.
  destruct (p mod 2 =? 0)%N; [|tauto].
  destruct (p mod 4 =? 0)%N; [|tauto].
  destruct (p mod 8 =? 0)%N; [|tauto].
  destruct (p mod 16 =? 0)%N; tauto.
Qed.

(** X11: [computeAlignmentSize] always answers one of 1, 2, 4, 8, 16, and
    the alignment of an alignment is the alignment itself. *)
Theorem computeAlignmentSize_idempotent (p : N) :
  exists a : N,
    computeAlignmentSize p = Some a /\
    alignment_value a /\
    computeAlignmentSize a = Some a.
Proof.
  destruct (RuntimeInfoFacts.computeAlignmentSize_spec p) as (a & Ha & _).
  exists a. split; [exact Ha|].
  pose proof (computeAlignmentSize_value p a Ha) as Hv.
  split; [exact Hv|].
  destruct Hv as [-> | [-> | [-> | [-> | ->]]]]; reflexivity.
Qed.

(** X12: asking for the alignment of one tensor does not change the answer
    for any tensor: whatever the state, the value obtained for [tv2] after a
    call for [tv1] is the value obtained without that call. *)
Theorem getAlignmentSize_independent (ri ri1 ri2 : SchedulerRuntimeInfo)
    (tv1 tv2 : positive) (a1 a2 : N) :
  getAlignmentSize ri tv1 = Some (a1, ri1) ->
  getAlignmentSize ri tv2 = Some (a2, ri2) ->
  exists ri12 : SchedulerRuntimeInfo,
    getAlignmentSize ri1 tv2 = Some (a2, ri12).
Proof.
  intros Hc1 Hc2.
  rewrite RuntimeInfoFacts.getAlignmentSize_unfold in Hc1, Hc2.
  rewrite RuntimeInfoFacts.getAlignmentSize_unfold.
  destruct (alignment_map_ ri !! tv1) as [m1 |] eqn:Hl1.
  { injection Hc1 as <- <-.
    destruct (alignment_map_ ri !! tv2) as [m2 |] eqn:Hl2.
    - injection Hc2 as <- <-. eexists; reflexivity.
    - destruct (fresh_alignment ri tv2) as [f2 |]; [|discriminate].
      simpl in Hc2. injection Hc2 as <- <-. simpl. eexists; reflexivity. }
  destruct (fresh_alignment ri tv1) as [f1 |] eqn:Hf1; [|discriminate].
  simpl in Hc1. injection Hc1 as <- <-. simpl.
  destruct (decide (tv1 = tv2)) as [<- | Hne].
  - rewrite Hl1, Hf1 in Hc2. simpl in Hc2. injection Hc2 as <- <-.
    rewrite lookup_insert_eq. eexists; reflexivity.
  - rewrite lookup_insert_ne by exact Hne.
    destruct (alignment_map_ ri !! tv2) as [m2 |] eqn:Hl2.
    + injection Hc2 as <- <-. eexists; reflexivity.
    + assert (Hext : forall r, fresh_alignment
                 (mkSchedulerRuntimeInfo (index_type_ ri) (input_ptrs_ ri)
                    (input_discontig_strides_ ri) r) tv2
               = fresh_alignment ri tv2) by reflexivity.
      rewrite Hext.
      destruct (fresh_alignment ri tv2) as [f2 |]; [|discriminate].
      simpl in Hc2. injection Hc2 as <- <-. simpl. eexists; reflexivity.
Qed.

Lemma getAlignmentSize_independent_witness :
  exists ri1 ri2 ri12 : SchedulerRuntimeInfo,
    getAlignmentSize Registry.empty_runtime_info 1%positive = Some (16%N, ri1) /\
    getAlignmentSize Registry.empty_runtime_info 2%positive = Some (16%N, ri2) /\
    getAlignmentSize ri1 2%positive = Some (16%N, ri12).
Proof.
  eexists. eexists.
  assert (H1 : getAlignmentSize Registry.empty_runtime_info 1%positive = Some (16%N, _))
    by reflexivity.
  assert (H2 : getAlignmentSize Registry.empty_runtime_info 2%positive = Some (16%N, _))
    by reflexivity.
  destruct (getAlignmentSize_independent _ _ _ _ _ _ _ H1 H2) as [ri12 H12].
  exists ri12. split; [exact H1|]. split; [exact H2 | exact H12].
Defined.

Lemma alignment_value_min (a b : N) :
  alignment_value a -> alignment_value b ->
  alignment_value (N.min a b) /\ (N.min a b | a)%N.
Proof.
  unfold alignment_value.
  intros [-> | [-> | [-> | [-> | ->]]]] [-> | [-> | [-> | [-> | ->]]]];
    (split; [vm_compute; tauto|]);
    match goal with
    | |- (N.min ?x ?y | ?x)%N =>
        let m := eval vm_compute in (N.min x y) in
        let q := eval vm_compute in (x / m)%N in
        exists q; reflexivity
    end.
Qed.

Lemma min_over_strides_value (strides : list N) (acc a : N) :
  alignment_value acc ->
  min_over_strides acc strides = Some a ->
  alignment_value a /\ (a | acc)%N.
Proof.
  revert acc. induction strides as [| s rest IH]; intros acc Hacc Hm;
    simpl in Hm.
  - injection Hm as <-. split; [exact Hacc | exists 1%N; lia].
  - destruct (computeAlignmentSize s) as [b |] eqn:Hb; [|discriminate].
    simpl in Hm.
    pose proof (computeAlignmentSize_value s b Hb) as Hbv.
    destruct (alignment_value_min acc b Hacc Hbv) as [Hmin Hdiv].
    destruct (IH _ Hmin Hm) as [Hav Hadiv].
    split; [exact Hav|]. exact (N.divide_trans _ _ _ Hadiv Hdiv).
Qed.

Lemma fresh_alignment_value (ri : SchedulerRuntimeInfo) (tv : positive) :
  exists a : N,
    fresh_alignment ri tv = Some a /\
    alignment_value a /\ (a | ptrOf ri tv)%N.
Proof.
  unfold fresh_alignment.
  destruct (RuntimeInfoFacts.computeAlignmentSize_spec (ptrOf ri tv))
    as (a0 & Ha0 & (_ & _ & Hdiv0 & _)).
  rewrite Ha0. simpl.
  pose proof (computeAlignmentSize_value _ _ Ha0) as Hv0.
  destruct (input_discontig_strides_ ri !! tv) as [strides |].
  - destruct (RuntimeInfoFacts.min_over_strides_spec strides a0)
      as (als & _ & Hmin).
    rewrite Hmin. eexists. split; [reflexivity|].
    destruct (min_over_strides_value strides a0 _ Hv0 Hmin) as [Hv Hd].
    split; [exact Hv|]. exact (N.divide_trans _ _ _ Hd Hdiv0).
  - exists a0. auto.
Qed.

(** X13: in every state reachable from the constructor [getAlignmentSize]
    succeeds for every tensor, input or not; the value is one of 1, 2, 4, 8,
    16 and divides the address that [ptrOf] reports for the tensor. *)
Theorem getAlignmentSize_total (inputs : list FusionInput)
    (forced : option PrimDataType) (kt : PrimDataType)
    (ri0 ri : SchedulerRuntimeInfo) (tv : positive) :
  newSchedulerRuntimeInfo inputs forced kt = Some ri0 ->
  reachable ri0 ri ->
  exists (a : N) (ri' : SchedulerRuntimeInfo),
    getAlignmentSize ri tv = Some (a, ri') /\
    alignment_value a /\
    (a | ptrOf ri tv)%N.
Proof.
  intros Hnew Hreach.
  pose proof (RuntimeInfoFacts.new_alignment_map_empty _ _ _ _ Hnew) as Hempty.
  pose proof (RuntimeInfoFacts.reachable_memo_ok _ _ Hempty Hreach) as Hok.
  destruct (fresh_alignment_value ri0 tv) as (a & Hfresh & Hv & Hdiv).
  destruct (RuntimeInfoFacts.getAlignmentSize_memo _ _ _ _ Hok Hfresh)
    as (ri' & Hcall & _).
  exists a, ri'. split; [exact Hcall|]. split; [exact Hv|].
  destruct Hok as (Hptrs & _). unfold ptrOf in *. rewrite Hptrs. exact Hdiv.
Qed.

Lemma getAlignmentSize_total_witness :
  let inputs :=
    [TensorInput 1%positive false 4 (mkTensorMetaData 40 [3; 4] [8; 1])] in
  exists ri0 : SchedulerRuntimeInfo,
    newSchedulerRuntimeInfo inputs None Int32 = Some ri0 /\
    reachable ri0 ri0 /\
    exists (a : N) (ri' : SchedulerRuntimeInfo),
      getAlignmentSize ri0 1%positive = Some (a, ri') /\
      alignment_value a /\
      (a | ptrOf ri0 1%positive)%N.
Proof.
  intros inputs. eexists.
  assert (Hnew : newSchedulerRuntimeInfo inputs None Int32 = Some _)
    by reflexivity.
  split; [exact Hnew|]. split; [apply reachable_new|].
  exact (getAlignmentSize_total inputs None Int32 _ _ 1%positive Hnew
           (reachable_new _)).
Defined.

(** *** Failure of the constructor *)

Lemma bind_inputs_None (inputs : list FusionInput) (ri : SchedulerRuntimeInfo) :
  bind_inputs inputs ri = None <-> Exists mismatched inputs.
Proof.
  revert ri. induction inputs as [| i rest IH]; intros ri; simpl.
  - split; [discriminate | intros H; inversion H].
  - rewrite Exists_cons. destruct i as [v | tv cpu dsz md]; simpl.
    + rewrite IH. tauto.
    + destruct cpu; [rewrite IH; tauto|].
      destruct (Nat.eqb_spec (length (alloc_size md)) (length (alloc_stride md)))
        as [Heq | Hne]; simpl.
      * rewrite IH. tauto.
      * tauto.
Qed.

Lemma bind_inputs_domain (inputs : list FusionInput)
    (ri ri' : SchedulerRuntimeInfo) (tv : positive) :
  bind_inputs inputs ri = Some ri' ->
  (is_Some (input_ptrs_ ri' !! tv) <->
   is_Some (input_ptrs_ ri !! tv) \/
   exists (dsz : Z) (md : TensorMetaData), TensorInput tv false dsz md ∈ inputs) /\
  (is_Some (input_discontig_strides_ ri' !! tv) <->
   is_Some (input_discontig_strides_ ri !! tv) \/
   exists (dsz : Z) (md : TensorMetaData), TensorInput tv false dsz md ∈ inputs).
Proof.
  revert ri. induction inputs as [| inp rest IH]; intros ri Hbind;
    cbn [bind_inputs] in Hbind.
  - injection Hbind as <-.
    split; (split; [intros Hs; left; exact Hs|]);
      (intros [Hs | (dsz & md & Hin)]; [exact Hs | inversion Hin]).
  - assert (Hskip : (forall dsz md, inp <> TensorInput tv false dsz md) ->
                    (exists (dsz : Z) (md : TensorMetaData),
                        TensorInput tv false dsz md ∈ inp :: rest) <->
                    (exists (dsz : Z) (md : TensorMetaData),
                        TensorInput tv false dsz md ∈ rest)).
    { intros Hne. split; intros (dsz & md & Hin); exists dsz, md.
      - apply elem_of_cons in Hin as [Heq | Hin]; [|exact Hin].
        exfalso. exact (Hne dsz md (eq_sym Heq)).
      - apply elem_of_cons. right. exact Hin. }
    destruct inp as [v | tv0 cpu dsz0 md0].
    { rewrite Hskip by (intros dsz md; discriminate). exact (IH _ Hbind). }
    destruct cpu.
    { rewrite Hskip by (intros dsz md; discriminate). exact (IH _ Hbind). }
    destruct (negb _); [discriminate|].
    specialize (IH _ Hbind) as (Hp & Hs).
    cbn [input_ptrs_ input_discontig_strides_] in Hp, Hs.
    rewrite lookup_insert_is_Some in Hp. rewrite lookup_insert_is_Some in Hs.
    destruct (decide (tv0 = tv)) as [-> | Hne].
    + assert (Hex : exists (dsz : Z) (md : TensorMetaData),
                 TensorInput tv false dsz md ∈ TensorInput tv false dsz0 md0 :: rest).
      { exists dsz0, md0. apply elem_of_cons. left. reflexivity. }
      split; [rewrite Hp | rewrite Hs]; (split; [intros _; right; exact Hex|]);
        intros _; left; left; reflexivity.
    + rewrite Hskip by (intros dsz md Heq; injection Heq as ->; contradiction).
      split; [rewrite Hp | rewrite Hs]; split.
      * intros [[Heq | [_ Hsome]] | Hin];
          [contradiction | left; exact Hsome | right; exact Hin].
      * intros [Hsome | Hin]; [left; right; split; assumption | right; exact Hin].
      * intros [[Heq | [_ Hsome]] | Hin];
          [contradiction | left; exact Hsome | right; exact Hin].
      * intros [Hsome | Hin]; [left; right; split; assumption | right; exact Hin].
Qed.

(** X14: a mismatch between the numbers of allocation sizes and strides of
    some tensor input that is not a CPU scalar makes the constructor fail.
    When it succeeds, a pointer and a list of discontiguous strides are
    recorded for exactly the tensor inputs that are not CPU scalars; scalar
    inputs and CPU scalar tensors are never entered, and the memo table of
    alignments starts out empty. *)
Theorem newSchedulerRuntimeInfo_records (inputs : list FusionInput)
    (forced : option PrimDataType) (kt : PrimDataType) :
  (Exists mismatched inputs -> newSchedulerRuntimeInfo inputs forced kt = None) /\
  forall ri : SchedulerRuntimeInfo,
    newSchedulerRuntimeInfo inputs forced kt = Some ri ->
    alignment_map_ ri = ∅ /\
    forall tv : positive,
      (is_Some (input_ptrs_ ri !! tv) <->
       exists (dsz : Z) (md : TensorMetaData),
         TensorInput tv false dsz md ∈ inputs) /\
      (is_Some (input_discontig_strides_ ri !! tv) <->
       exists (dsz : Z) (md : TensorMetaData),
         TensorInput tv false dsz md ∈ inputs).
Proof.
  split.
  - intros Hex. unfold newSchedulerRuntimeInfo. apply bind_inputs_None. exact Hex.
  - intros ri Hnew.
    split; [exact (RuntimeInfoFacts.new_alignment_map_empty _ _ _ _ Hnew)|].
    intros tv. unfold newSchedulerRuntimeInfo in Hnew.
    destruct (bind_inputs_domain _ _ _ tv Hnew) as (Hp & Hs).
    cbn [input_ptrs_ input_discontig_strides_] in Hp, Hs.
    rewrite lookup_empty in Hp. rewrite lookup_empty in Hs.
    split; [rewrite Hp | rewrite Hs];
      (split; [intros [Hnone | Hin]; [destruct Hnone; discriminate | exact Hin]
              | intros Hin; right; exact Hin]).
Qed.

Lemma newSchedulerRuntimeInfo_records_witness :
  Exists mismatched
    [ScalarInput 1;
     TensorInput 2 false 4 (mkTensorMetaData 64 [8; 4] [4])] /\
  newSchedulerRuntimeInfo
    [ScalarInput 1;
     TensorInput 2 false 4 (mkTensorMetaData 64 [8; 4] [4])] None Int32 = None.
Proof.
  assert (Hex : Exists mismatched
                  [ScalarInput 1;
                   TensorInput 2 false 4 (mkTensorMetaData 64 [8; 4] [4])]).
  { apply Exists_cons. right. apply Exists_cons. left. cbn. lia. }
  split; [exact Hex|].
  exact (proj1 (newSchedulerRuntimeInfo_records _ None Int32) Hex).
Defined.

End RuntimeInfoExtra.

Module RegistryExtra.
Import Utils RuntimeInfo Registry.

Section WithSchedulers.
Context `{Schedulers}.

(** X15: whatever the gates of the schedulers answer, a fusion with an SDPA
    op is proposed the ExprEval scheduler or none, and a fusion with a
    MatmulOp, LinearOp or MmaOp is proposed ExprEval, Matmul or none. *)
Theorem proposeHeuristics_restricted (fusion : Fusion)
    (ri : SchedulerRuntimeInfo) (r : option ScheduleHeuristic) :
  proposeHeuristics fusion ri = Some r ->
  (hasOpsOfType [SdpaFwdOp; SdpaBwdOp] fusion = true ->
   r = None \/ r = Some ExprEval) /\
  (hasOpsOfType [MatmulOp; LinearOp; MmaOp] fusion = true ->
   r = None \/ r = Some ExprEval \/ r = Some Matmul).
Proof.
  intros Hp. unfold proposeHeuristics in Hp.
  destruct (RegistryFacts.proposeHeuristics_loop_spec
              all_heuristics_in_priority_order fusion ri) as (r' & Hr' & Hspec).
  rewrite Hr' in Hp. injection Hp as <-.
  destruct r' as [sh |]; [|split; intros _; left; reflexivity].
  destruct Hspec as (_ & _ & _ & Hacc & _).
  unfold accepts in Hacc.
  destruct (decide (sh = ExprEval)) as [-> | Hne].
  { split; intros _; right; [|left]; reflexivity. }
  rewrite bool_decide_eq_false_2 in Hacc by exact Hne.
  destruct Hacc as (Hsdpa & Hmm & _).
  split.
  - intros Hs. congruence.
  - intros Hm. destruct Hmm as [-> | Hmm]; [|congruence].
    right; right; reflexivity.
Qed.

End WithSchedulers.

Lemma proposeHeuristics_restricted_witness :
  @proposeHeuristics permissive_schedulers (mkFusion [SdpaFwdOp])
    empty_runtime_info = Some (Some ExprEval) /\
  (hasOpsOfType [SdpaFwdOp; SdpaBwdOp] (mkFusion [SdpaFwdOp]) = true ->
   Some ExprEval = None \/ Some ExprEval = Some ExprEval).
Proof.
  assert (Hp : @proposeHeuristics permissive_schedulers (mkFusion [SdpaFwdOp])
                 empty_runtime_info = Some (Some ExprEval)) by reflexivity.
  split; [exact Hp|].
  exact (proj1 (@proposeHeuristics_restricted permissive_schedulers _ _ _ Hp)).
Defined.

End RegistryExtra.

Module PointwiseExtra.
Import Utils Pointwise.

(** *** The break-point search *)

Lemma candidate_zero (p : PointwiseProblem) (st : BreakState) :
  candidate p 0 st = None.
Proof.
  unfold candidate.
  destruct (negb (breakIsDisjoint p (Z.of_nat 0))); [reflexivity|].
  assert (Hleft : (div64 (n_elems p) (cur_right_elem_count p 0) <=? 1) = true).
  { unfold cur_right_elem_count, n_elems. rewrite drop_0.
    unfold div64. apply Z.leb_le.
    destruct (Z.eq_dec (fold_left mul64 (elem_counts p) 1) 0) as [-> | Hnz].
    - vm_compute. discriminate.
    - rewrite Z.quot_same by exact Hnz. vm_compute. discriminate. }
  rewrite Hleft. reflexivity.
Qed.

(** The two ways the search can end. *)
Lemma breakPointSearch_cases (p : PointwiseProblem) :
  breakPointSearch p = initial_state \/
  exists (i : nat) (st0 : BreakState),
    (1 <= i < length (elem_counts p))%nat /\
    candidate p i st0 = Some (breakPointSearch p).
Proof.
  unfold breakPointSearch.
  destruct (_ >? _); [|left; reflexivity].
  destruct (PointwiseFacts.search_loop_last p (seq 0 (length (elem_counts p)))
              initial_state) as [Heq | (i & st0 & Hin & Hc)].
  - left; exact Heq.
  - right. exists i, st0.
    apply elem_of_seq in Hin.
    assert (i <> 0%nat).
    { intros ->. rewrite candidate_zero in Hc. discriminate. }
    split; [lia | exact Hc].
Qed.

(** X16: the search never breaks at position 0: it ends in the initial
    state (one-dimensional schedule, break point 0) or with a break point
    strictly inside the reference tensor, for which the candidate test
    succeeded. *)
Theorem breakPointSearch_break_point (p : PointwiseProblem) :
  breakPointSearch p = initial_state \/
  exists (i : nat) (st0 : BreakState),
    (1 <= i < length (elem_counts p))%nat /\
    candidate p i st0 = Some (breakPointSearch p) /\
    st_break_point (breakPointSearch p) = Z.of_nat i.
Proof.
  destruct (breakPointSearch_cases p) as [Heq | (i & st0 & Hi & Hc)];
    [left; exact Heq|].
  right. exists i, st0. split; [exact Hi|]. split; [exact Hc|].
  exact (proj1 (PointwiseFacts.candidate_Some_inv p i st0 _ Hc)).
Qed.

Lemma candidate_mono (p : PointwiseProblem) (i : nat) (st st' : BreakState) :
  st_min_total_transfer st' <= st_min_total_transfer st ->
  candidate p i st = None -> candidate p i st' = None.
Proof.
  unfold candidate. intros Hle.
  destruct (negb (breakIsDisjoint p (Z.of_nat i))); [reflexivity|].
  destruct (div64 (n_elems p) (cur_right_elem_count p i) <=? 1);
    [reflexivity|].
  match goal with
  | |- (if (?a >=? ?b) || ?c then _ else _) = _ ->
       (if (?a >=? ?b') || ?c then _ else _) = _ =>
      destruct (Z.geb_spec a b) as [Hge | Hlt];
      destruct (Z.geb_spec a b') as [Hge' | Hlt']; try lia; simpl;
      try reflexivity; destruct c; try reflexivity
  end;
  destruct (ceilDiv (cur_right_elem_count p i) (max_unroll_factor p)
            <=? warpSize (device p)); try reflexivity; discriminate.
Qed.

Lemma candidate_again (p : PointwiseProblem) (i : nat) (st st' : BreakState) :
  candidate p i st = Some st' -> candidate p i st' = None.
Proof.
  unfold candidate.
  destruct (negb (breakIsDisjoint p (Z.of_nat i))); [discriminate|].
  destruct (div64 (n_elems p) (cur_right_elem_count p i) <=? 1);
    [discriminate|].
  match goal with
  | |- (if (?a >=? ?b) || ?c then _ else _) = _ -> _ =>
      destruct ((a >=? b) || c); [discriminate|]
  end.
  destruct (ceilDiv (cur_right_elem_count p i) (max_unroll_factor p)
            <=? warpSize (device p)); [discriminate|].
  intros [= <-]. cbn [st_min_total_transfer].
  match goal with
  | |- (if (?a >=? ?a) || ?c then _ else _) = _ =>
      destruct (Z.geb_spec a a); [reflexivity | lia]
  end.
Qed.

Lemma search_loop_min_le (p : PointwiseProblem) (l : list nat) (st : BreakState) :
  st_min_total_transfer (search_loop p l st) <= st_min_total_transfer st.
Proof.
  revert st. induction l as [| i rest IH]; intros st; simpl; [lia|].
  destruct (candidate p i st) as [st' |] eqn:Hc.
  - pose proof (PointwiseFacts.candidate_Some_inv p i st st' Hc) as (_ & _ & Hlt).
    specialize (IH st'). lia.
  - apply IH.
Qed.

Lemma search_loop_stable (p : PointwiseProblem) (l : list nat) (st : BreakState)
    (i : nat) :
  i ∈ l -> candidate p i (search_loop p l st) = None.
Proof.
  revert st. induction l as [| j rest IH]; intros st Hin; [inversion Hin|].
  apply elem_of_cons in Hin as [-> | Hin]; simpl.
  - destruct (candidate p j st) as [st' |] eqn:Hc.
    + apply (candidate_mono p j st'); [apply search_loop_min_le|].
      exact (candidate_again p j st st' Hc).
    + apply (candidate_mono p j st); [apply search_loop_min_le | exact Hc].
  - apply IH. exact Hin.
Qed.

(** X17: when the search runs, its result cannot be improved: applied to the
    final state, the test of every break point is a [continue].  So every
    break point that passes the other tests of the loop has a transfer size
    of at least the minimum the search ends with. *)
Theorem breakPointSearch_stable (p : PointwiseProblem) (i : nat) :
  mul64 (n_elems p) 2 > mul64 (multiProcessorCount (device p)) kThreadX ->
  (i < length (elem_counts p))%nat ->
  candidate p i (breakPointSearch p) = None.
Proof.
  intros Hrun Hi. unfold breakPointSearch.
  destruct (Z.gtb_spec (mul64 (n_elems p) 2)
              (mul64 (multiProcessorCount (device p)) kThreadX)); [|lia].
  apply search_loop_stable. apply elem_of_seq. lia.
Qed.

Lemma breakPointSearch_stable_witness :
  mul64 (n_elems wide_problem) 2
  > mul64 (multiProcessorCount (device wide_problem)) kThreadX /\
  (1 < length (elem_counts wide_problem))%nat /\
  candidate wide_problem 1 (breakPointSearch wide_problem) = None.
Proof.
  assert (H1 : mul64 (n_elems wide_problem) 2
               > mul64 (multiProcessorCount (device wide_problem)) kThreadX)
    by (vm_compute; reflexivity).
  assert (H2 : (1 < length (elem_counts wide_problem))%nat) by (simpl; lia).
  split; [exact H1|]. split; [exact H2|].
  exact (breakPointSearch_stable wide_problem 1 H1 H2).
Defined.

(** *** Block sizes and the internal assertions *)

(** The block and grid variables assigned when a candidate is used. *)
Lemma candidate_fields (p : PointwiseProblem) (i : nat) (st st' : BreakState) :
  candidate p i st = Some st' ->
  warpSize (device p)
  < ceilDiv (cur_right_elem_count p i) (max_unroll_factor p) /\
  st_right_elem_count st' = cur_right_elem_count p i /\
  st_bdimx st'
  = Z.min (ceilDiv (cur_right_elem_count p i) (max_unroll_factor p)) kThreadX /\
  (st_bdimy st' = 1 \/ st_bdimy st' = div64 kThreadX (st_bdimx st')) /\
  st_gdim_right st'
  = ceilDiv (cur_right_elem_count p i)
            (mul64 (st_bdimx st') (max_unroll_factor p)).
Proof.
  unfold candidate. intros Hc.
  destruct (negb (breakIsDisjoint p (Z.of_nat i))); [discriminate|].
  destruct (div64 (n_elems p) (cur_right_elem_count p i) <=? 1);
    [discriminate|].
  match type of Hc with
  | (if ?c then _ else _) = _ => destruct c; [discriminate|]
  end.
  destruct (Z.leb_spec (ceilDiv (cur_right_elem_count p i) (max_unroll_factor p))
                       (warpSize (device p))) as [Hle | Hgt]; [discriminate|].
  injection Hc as <-.
  cbn [st_right_elem_count st_bdimx st_bdimy st_gdim_right].
  split; [exact Hgt|]. split; [reflexivity|]. split; [reflexivity|].
  split; [|reflexivity].
  destruct (_ >? _); [right | left]; reflexivity.
Qed.

Lemma div64_kThreadX (b : Z) :
  1 <= b <= 128 ->
  1 <= div64 kThreadX b /\ b * div64 kThreadX b <= 128.
Proof.
  intros Hb. unfold div64, kThreadX.
  rewrite Z.quot_div_nonneg by lia.
  assert (H1 : 1 <= 128 / b) by (apply Z.div_le_lower_bound; lia).
  assert (H2 : b * (128 / b) <= 128) by (apply Z.mul_div_le; lia).
  assert (H3 : 128 / b <= 128) by (apply Z.div_le_upper_bound; nia).
  rewrite UtilsExtra.wrap64_id by lia. lia.
Qed.

Lemma breakPointSearch_block (p : PointwiseProblem) :
  0 <= warpSize (device p) ->
  1 <= st_bdimx (breakPointSearch p) <= 128 /\
  1 <= st_bdimy (breakPointSearch p) /\
  st_bdimx (breakPointSearch p) * st_bdimy (breakPointSearch p) <= 128.
Proof.
  intros Hw.
  destruct (breakPointSearch_cases p) as [-> | (i & st0 & _ & Hc)].
  - vm_compute. repeat split; discriminate.
  - destruct (candidate_fields p i st0 _ Hc) as (Hgt & _ & Hx & Hy & _).
    assert (Hbx : 1 <= st_bdimx (breakPointSearch p) <= 128)
      by (rewrite Hx; unfold kThreadX; lia).
    destruct (div64_kThreadX _ Hbx) as (Hd1 & Hd2).
    destruct Hy as [-> | ->]; lia.
Qed.

(** X18: on a device with a non-negative warp size, the launch parameters
    returned are the default-constructed ones of the early exit, or bind a
    block of between 1 and 128 threads: [bdimx] is in that range, and [bdimy]
    is bound exactly when the block is split, in which case it exceeds 1
    and [bdimx * bdimy] is at most 128. *)
Theorem getPointwiseHeuristics_block_size (p : PointwiseProblem)
    (params : PointwiseParams) :
  0 <= warpSize (device p) ->
  getPointwiseHeuristics p = Some params ->
  params = newPointwiseParams \/
  exists bx : Z,
    lp_bdimx (lparams params) = Some bx /\ 1 <= bx <= 128 /\
    match lp_bdimy (lparams params) with
    | Some bdimy =>
        split_block params = true /\ 1 < bdimy /\ bx * bdimy <= 128
    | None => split_block params = false
    end.
Proof.
  intros Hw. unfold getPointwiseHeuristics.
  destruct (_ || _); [intros [= <-]; left; reflexivity|].
  destruct (negb _); [discriminate|].
  unfold fillParams.
  destruct (negb _); [discriminate|].
  destruct (_ && _); [discriminate|].
  intros [= <-]. right.
  destruct (breakPointSearch_block p Hw) as (Hx & Hy & Hxy).
  exists (st_bdimx (breakPointSearch p)).
  cbn [lparams lp_bdimx lp_bdimy split_block].
  split; [reflexivity|]. split; [exact Hx|].
  destruct (Z.gtb_spec (st_bdimy (breakPointSearch p)) 1) as [Hgt | Hle].
  - split; [reflexivity|]. lia.
  - reflexivity.
Qed.

Lemma getPointwiseHeuristics_block_size_witness :
  0 <= warpSize (device wide_problem) /\
  exists params : PointwiseParams,
    getPointwiseHeuristics wide_problem = Some params /\
    (params = newPointwiseParams \/
     exists bx : Z,
       lp_bdimx (lparams params) = Some bx /\ 1 <= bx <= 128 /\
       match lp_bdimy (lparams params) with
       | Some bdimy =>
           split_block params = true /\ 1 < bdimy /\ bx * bdimy <= 128
       | None => split_block params = false
       end).
Proof.
  assert (Hw : 0 <= warpSize (device wide_problem)) by (vm_compute; discriminate).
  split; [exact Hw|].
  destruct (getPointwiseHeuristics wide_problem) as [params |] eqn:Hg;
    [|vm_compute in Hg; discriminate Hg].
  exists params. split; [reflexivity|].
  exact (getPointwiseHeuristics_block_size wide_problem params Hw Hg).
Defined.







(** *** The unroll factor *)

Lemma fold_left_max_range (l : list Z) (acc : Z) :
  Forall (fun s => s <= 16) l -> 2 <= acc <= 16 ->
  2 <= fold_left Z.max l acc <= 16.
Proof.
  revert acc. induction l as [| s l IH]; intros acc Hall Hacc; [exact Hacc|].
  inversion Hall as [| ? ? Hs Hl]; subst. cbn [fold_left].
  apply IH; [exact Hl | lia].
Qed.

(** X28: with input elements of at most 16 bytes, at least one element, a
    [lastPow2] result and a multiprocessor count in range, the unroll
    factor lies between 1 and 8, and it is 1 whenever the elements do not
    fill a wave of 128 threads on every multiprocessor. *)
Theorem max_unroll_factor_range (p : PointwiseProblem) :
  Forall (fun s => s <= 16) (input_dtype_sizes p) ->
  0 <= lastPow2 p (num_vectorizable p) < 2 ^ 62 ->
  0 <= multiProcessorCount (device p) < 2 ^ 50 ->
  1 <= n_elems p ->
  1 <= max_unroll_factor p <= 8 /\
  (n_elems p < multiProcessorCount (device p) * 128 ->
   max_unroll_factor p = 1).
Proof.
  intros Hsizes Hlp Hmp Hn. unfold max_unroll_factor.
  pose proof (fold_left_max_range (input_dtype_sizes p) 2 Hsizes ltac:(lia))
    as Hmds.
  fold (max_input_dtype_size p) in Hmds.
  set (mds := max_input_dtype_size p) in *.
  set (lp := lastPow2 p (num_vectorizable p)) in *.
  assert (Hq : 1 <= div64 16 mds <= 8).
  { unfold div64. rewrite Z.quot_div_nonneg by lia.
    assert (1 <= 16 / mds) by (apply Z.div_le_lower_bound; lia).
    assert (16 / mds <= 8) by (apply Z.div_le_upper_bound; lia).
    rewrite UtilsExtra.wrap64_id by lia. lia. }
  set (q := div64 16 mds) in *.
  assert (Hd : 1 <= Z.max (Z.shiftr lp 2) 1 < 2 ^ 62).
  { rewrite Z.shiftr_div_pow2 by lia.
    assert (lp / 2 ^ 2 <= lp) by (apply Z.div_le_upper_bound; lia).
    lia. }
  set (d := Z.max (Z.shiftr lp 2) 1) in *.
  assert (Hm : 1 <= ceilDiv q d <= 8).
  { rewrite UtilsExtra.ceilDiv_quot by lia. split.
    - apply Z.div_le_lower_bound; lia.
    - apply Z.lt_succ_r. apply Z.div_lt_upper_bound; nia. }
  set (m := ceilDiv q d) in *.
  assert (Hwave : mul64 (multiProcessorCount (device p)) kThreadX
                  = multiProcessorCount (device p) * 128).
  { unfold mul64, kThreadX. apply UtilsExtra.wrap64_id. lia. }
  rewrite Hwave.
  destruct (Z.ltb_spec (n_elems p) (multiProcessorCount (device p) * 128))
    as [Hlt | Hge]; cbn [andb].
  - assert (Hone : ceilDiv (n_elems p) (multiProcessorCount (device p) * 128)
                   = 1).
    { rewrite UtilsExtra.ceilDiv_quot by lia.
      symmetry. apply Z.div_unique with (r := n_elems p - 1); lia. }
    destruct (Z.gtb_spec m 1) as [Hgt | Hle].
    + rewrite Hone. split; [lia|]. intros _. lia.
    + split; [lia|]. intros _. lia.
  - split; [lia|]. intros Hlt. lia.
Qed.

Lemma max_unroll_factor_range_witness :
  Forall (fun s => s <= 16) (input_dtype_sizes wide_problem) /\
  0 <= lastPow2 wide_problem (num_vectorizable wide_problem) < 2 ^ 62 /\
  0 <= multiProcessorCount (device wide_problem) < 2 ^ 50 /\
  1 <= n_elems wide_problem /\
  1 <= max_unroll_factor wide_problem <= 8.
Proof.
  assert (H1 : Forall (fun s => s <= 16) (input_dtype_sizes wide_problem))
    by (repeat constructor; vm_compute; discriminate).
  assert (H2 : 0 <= lastPow2 wide_problem (num_vectorizable wide_problem)
               < 2 ^ 62)
    by (vm_compute; split; [discriminate | reflexivity]).
  assert (H3 : 0 <= multiProcessorCount (device wide_problem) < 2 ^ 50)
    by (vm_compute; split; [discriminate | reflexivity]).
  assert (H4 : 1 <= n_elems wide_problem) by (vm_compute; discriminate).
  split; [exact H1|]. split; [exact H2|]. split; [exact H3|].
  split; [exact H4|].
  exact (proj1 (max_unroll_factor_range wide_problem H1 H2 H3 H4)).
Defined.

End PointwiseExtra.

Module LowerUtilsExtra.
Import Utils LowerUtils.

Lemma last_take_S {A : Type} (x : A) (l : list A) (k : nat) :
  last (take (S k) (x :: l)) = Some (default x (last (take k l))).
Proof.
  cbn [take]. rewrite last_cons. destruct (last (take k l)); reflexivity.
Qed.

Section WithGpuLower.
Context `{GpuLower}.

(** The loops returned by the walk: [k] loops were passed, the allocation
    loop stopped following after [j] of them. *)
Lemma alloc_loop_shape (tv : TensorView) (id_map : gmap nat IterDomain)
    (use_id_map : bool) (for_loops : list ForLoop)
    (info info' : BasicAllocInfo) (found : bool) :
  alloc_loop tv id_map use_id_map for_loops info found = Some info' ->
  exists j k : nat,
    (j <= k <= length for_loops)%nat /\
    init_for_loop info'
    = match last (take k for_loops) with
      | Some fl => Some fl
      | None => init_for_loop info
      end /\
    alloc_for_loop info'
    = match last (take j for_loops) with
      | Some fl => Some fl
      | None => alloc_for_loop info
      end /\
    (found = true -> j = 0%nat) /\
    (0 <= alloc_pos info <= getComputeAtPosition tv ->
     getComputeAtPosition tv < 2 ^ 63 ->
     alloc_pos info' <= alloc_pos info + Z.of_nat k).
Proof.
  revert info found.
  induction for_loops as [| fl rest IH]; intros info found Hloop.
  - injection Hloop as <-. exists 0%nat, 0%nat. cbn.
    repeat split; try reflexivity; lia.
  - cbn [alloc_loop] in Hloop.
    assert (Hstop : exists j k : nat,
               (j <= k <= length (fl :: rest))%nat /\
               init_for_loop info
               = match last (take k (fl :: rest)) with
                 | Some fl => Some fl
                 | None => init_for_loop info
                 end /\
               alloc_for_loop info
               = match last (take j (fl :: rest)) with
                 | Some fl => Some fl
                 | None => alloc_for_loop info
                 end /\
               (found = true -> j = 0%nat) /\
               (0 <= alloc_pos info <= getComputeAtPosition tv ->
                getComputeAtPosition tv < 2 ^ 63 ->
                alloc_pos info <= alloc_pos info + Z.of_nat k)).
    { exists 0%nat, 0%nat. cbn. repeat split; try reflexivity; lia. }
    destruct (Z.eqb_spec (alloc_pos info) (getComputeAtPosition tv)) as [Heq | Hne].
    { injection Hloop as <-. exact Hstop. }
    destruct (axis tv (alloc_pos info)) as [ax |]; cbn [mbind option_bind] in Hloop;
      [|discriminate].
    destruct (isReduction ax).
    { destruct (isTerminatingOutput tv); [|discriminate].
      injection Hloop as <-. exact Hstop. }
    destruct (bool_decide (getParallelType (iter_domain fl) = Unroll)).
    { injection Hloop as <-. exact Hstop. }
    clear Hstop.
    match type of Hloop with
    | alloc_loop _ _ _ _ (mkBasicAllocInfo _ (if ?f then _ else _) ?p) _ = _ =>
        set (found1 := f) in *; set (pos1 := p) in *
    end.
    assert (Hsticky : found = true -> found1 = true).
    { intros ->. reflexivity. }
    apply IH in Hloop as (j & k & Hjk & Hinit & Halloc & Hj & Hpos).
    cbn [init_for_loop alloc_for_loop alloc_pos] in *.
    assert (Hpos' : 0 <= alloc_pos info <= getComputeAtPosition tv ->
                    getComputeAtPosition tv < 2 ^ 63 ->
                    alloc_pos info' <= alloc_pos info + Z.of_nat (S k)).
    { intros Hp Hca.
      assert (Hp1 : alloc_pos info <= pos1 <= alloc_pos info + 1
                    /\ pos1 <= getComputeAtPosition tv).
      { subst pos1. destruct (areMappedPermissive _ _); [|lia].
        rewrite LowerUtilsFacts.add64_succ_small by lia. lia. }
      specialize (Hpos ltac:(lia) Hca). lia. }
    destruct found1 eqn:Hf1.
    + specialize (Hj eq_refl). subst j.
      exists 0%nat, (S k). rewrite last_take_S.
      cbn [take last] in *. cbn [length].
      split; [lia|]. split.
      { rewrite Hinit. destruct (last (take k rest)); reflexivity. }
      split; [exact Halloc|]. split; [reflexivity | exact Hpos'].
    + exists (S j), (S k). rewrite !last_take_S. cbn [length].
      split; [lia|]. split.
      { rewrite Hinit. destruct (last (take k rest)); reflexivity. }
      split.
      { rewrite Halloc. destruct (last (take j rest)); reflexivity. }
      split; [|exact Hpos'].
      intros Hfound. specialize (Hsticky Hfound). discriminate.
Qed.

(** X20: the loops [getAllocInformation] returns are loops of [for_loops],
    the allocation loop being the initialization loop or a loop enclosing
    it: [k] loops were passed and the allocation loop followed for the first
    [j <= k] of them; both are null when no loop was passed, and the
    allocation position is at most the number of loops passed. *)
Theorem getAllocInformation_loops (tv : TensorView) (for_loops : list ForLoop)
    (id_map : gmap nat IterDomain) (use_id_map : bool) (info : BasicAllocInfo) :
  0 <= getComputeAtPosition tv < 2 ^ 63 ->
  getAllocInformation tv for_loops id_map use_id_map = Some info ->
  exists j k : nat,
    (j <= k <= length for_loops)%nat /\
    init_for_loop info = last (take k for_loops) /\
    alloc_for_loop info = last (take j for_loops) /\
    0 <= alloc_pos info <= Z.of_nat k.
Proof.
  intros Hca Hget.
  assert (Hb : alloc_pos (mkBasicAllocInfo None None 0) <= alloc_pos info
               <= getComputeAtPosition tv).
  { apply (LowerUtilsFacts.alloc_loop_bound tv id_map use_id_map for_loops
             _ _ false (proj2 Hca)); [cbn; lia | exact Hget]. }
  apply alloc_loop_shape in Hget as (j & k & Hjk & Hinit & Halloc & _ & Hpos).
  cbn [init_for_loop alloc_for_loop alloc_pos] in *.
  exists j, k. split; [exact Hjk|].
  split; [rewrite Hinit; destruct (last (take k for_loops)); reflexivity|].
  split; [rewrite Halloc; destruct (last (take j for_loops)); reflexivity|].
  specialize (Hpos ltac:(lia) ltac:(lia)). lia.
Qed.

Lemma alloc_loop_global (tv : TensorView) (id_map : gmap nat IterDomain)
    (use_id_map : bool) (for_loops : list ForLoop)
    (info info' : BasicAllocInfo) (found : bool) :
  getMemoryType tv = Global ->
  alloc_loop tv id_map use_id_map for_loops info found = Some info' ->
  alloc_for_loop info' = alloc_for_loop info.
Proof.
  intros Hg. revert info found.
  induction for_loops as [| fl rest IH]; intros info found Hloop;
    cbn [alloc_loop] in Hloop.
  - injection Hloop as <-. reflexivity.
  - destruct (alloc_pos info =? getComputeAtPosition tv);
      [injection Hloop as <-; reflexivity|].
    destruct (axis tv (alloc_pos info)) as [ax |]; cbn [mbind option_bind] in Hloop;
      [|discriminate].
    destruct (isReduction ax).
    { destruct (isTerminatingOutput tv); [|discriminate].
      injection Hloop as <-. reflexivity. }
    destruct (bool_decide (getParallelType (iter_domain fl) = Unroll));
      [injection Hloop as <-; reflexivity|].
    rewrite (bool_decide_eq_true_2 _ Hg) in Hloop.
    rewrite orb_true_r in Hloop. cbn [orb] in Hloop.
    apply IH in Hloop. exact Hloop.
Qed.

(** X21: for a tensor in global memory no allocation loop is returned: the
    allocation goes to the outermost scope, whatever the loops are. *)
Theorem getAllocInformation_global (tv : TensorView) (for_loops : list ForLoop)
    (id_map : gmap nat IterDomain) (use_id_map : bool) (info : BasicAllocInfo) :
  getMemoryType tv = Global ->
  getAllocInformation tv for_loops id_map use_id_map = Some info ->
  alloc_for_loop info = None.
Proof.
  intros Hg Hget.
  exact (alloc_loop_global _ _ _ _ _ _ _ Hg Hget).
Qed.

Lemma alloc_loop_same (tv : TensorView) (id_map : gmap nat IterDomain)
    (use_id_map : bool) (for_loops : list ForLoop)
    (info info' : BasicAllocInfo) :
  getMemoryType tv <> Global ->
  (getMemoryType tv = Shared ->
   Forall (fun fl => getParallelType (iter_domain fl) <> Unswitch) for_loops) ->
  isCircularBuffered tv = false ->
  alloc_for_loop info = init_for_loop info ->
  alloc_loop tv id_map use_id_map for_loops info false = Some info' ->
  alloc_for_loop info' = init_for_loop info'.
Proof.
  intros Hg Hs Hc. revert info.
  induction for_loops as [| fl rest IH]; intros info Heq Hloop;
    cbn [alloc_loop] in Hloop.
  - injection Hloop as <-. exact Heq.
  - destruct (alloc_pos info =? getComputeAtPosition tv);
      [injection Hloop as <-; exact Heq|].
    destruct (axis tv (alloc_pos info)) as [ax |]; cbn [mbind option_bind] in Hloop;
      [|discriminate].
    destruct (isReduction ax).
    { destruct (isTerminatingOutput tv); [|discriminate].
      injection Hloop as <-. exact Heq. }
    destruct (bool_decide (getParallelType (iter_domain fl) = Unroll));
      [injection Hloop as <-; exact Heq|].
    rewrite Hc in Hloop.
    rewrite (bool_decide_eq_false_2 _ Hg) in Hloop.
    assert (Hus : bool_decide (getParallelType (iter_domain fl) = Unswitch)
                  && bool_decide (getMemoryType tv = Shared) = false).
    { apply andb_false_iff.
      destruct (decide (getMemoryType tv = Shared)) as [Hsh | Hsh].
      - left. apply bool_decide_eq_false_2.
        specialize (Hs Hsh). inversion Hs; assumption.
      - right. apply bool_decide_eq_false_2. exact Hsh. }
    rewrite Hus in Hloop. cbn [orb andb] in Hloop.
    apply IH in Hloop; [exact Hloop | | reflexivity].
    intros Hsh. specialize (Hs Hsh). inversion Hs; assumption.
Qed.

(** X22: a tensor that is not in global memory, is not circular buffered
    and, if in shared memory, sits in no unswitched loop is allocated where
    it is initialized: the two loops returned are the same. *)
Theorem getAllocInformation_same_loop (tv : TensorView)
    (for_loops : list ForLoop) (id_map : gmap nat IterDomain)
    (use_id_map : bool) (info : BasicAllocInfo) :
  getMemoryType tv <> Global ->
  (getMemoryType tv = Shared ->
   Forall (fun fl => getParallelType (iter_domain fl) <> Unswitch) for_loops) ->
  isCircularBuffered tv = false ->
  getAllocInformation tv for_loops id_map use_id_map = Some info ->
  alloc_for_loop info = init_for_loop info.
Proof.
  intros Hg Hs Hc Hget.
  apply (alloc_loop_same tv id_map use_id_map for_loops
           (mkBasicAllocInfo None None 0) info Hg Hs Hc); [reflexivity|].
  exact Hget.
Qed.

Lemma alloc_loop_returns (tv : TensorView) (id_map : gmap nat IterDomain)
    (use_id_map : bool) (for_loops : list ForLoop)
    (info : BasicAllocInfo) (found : bool) :
  getComputeAtPosition tv < 2 ^ 63 ->
  0 <= alloc_pos info <= getComputeAtPosition tv ->
  (forall (pos : Z) (ax : IterDomain),
      0 <= pos < getComputeAtPosition tv -> axis tv pos = Some ax ->
      isReduction ax = true -> isTerminatingOutput tv = true) ->
  (forall pos : Z, 0 <= pos < getComputeAtPosition tv -> is_Some (axis tv pos)) ->
  is_Some (alloc_loop tv id_map use_id_map for_loops info found).
Proof.
  intros Hca Hpos Hred Hax. revert info found Hpos.
  induction for_loops as [| fl rest IH]; intros info found Hpos;
    cbn [alloc_loop].
  - eexists; reflexivity.
  - destruct (Z.eqb_spec (alloc_pos info) (getComputeAtPosition tv)) as [Heq | Hne];
      [eexists; reflexivity|].
    assert (Hin : 0 <= alloc_pos info < getComputeAtPosition tv) by lia.
    destruct (Hax (alloc_pos info) Hin) as [ax Hsome].
    rewrite Hsome. cbn [mbind option_bind].
    destruct (isReduction ax) eqn:Hr.
    { rewrite (Hred _ _ Hin Hsome Hr). eexists; reflexivity. }
    destruct (bool_decide (getParallelType (iter_domain fl) = Unroll));
      [eexists; reflexivity|].
    apply IH. cbn [alloc_pos].
    destruct (areMappedPermissive _ _); [|lia].
    rewrite LowerUtilsFacts.add64_succ_small by lia. lia.
Qed.

(** X23: [getAllocInformation] raises no error when the tensor has an axis
    at every position left of its compute-at position and, should one of
    these be a reduction axis, is a terminating output of the fusion. *)
Theorem getAllocInformation_returns (tv : TensorView)
    (for_loops : list ForLoop) (id_map : gmap nat IterDomain)
    (use_id_map : bool) :
  0 <= getComputeAtPosition tv < 2 ^ 63 ->
  (forall pos : Z, 0 <= pos < getComputeAtPosition tv -> is_Some (axis tv pos)) ->
  (forall (pos : Z) (ax : IterDomain),
      0 <= pos < getComputeAtPosition tv -> axis tv pos = Some ax ->
      isReduction ax = true -> isTerminatingOutput tv = true) ->
  is_Some (getAllocInformation tv for_loops id_map use_id_map).
Proof.
  intros Hca Hax Hred.
  apply alloc_loop_returns; [lia | cbn; lia | exact Hred | exact Hax].
Qed.

End WithGpuLower.

Lemma getAllocInformation_loops_witness :
  0 <= getComputeAtPosition inlined_tensor < 2 ^ 63 /\
  exists (info : BasicAllocInfo) (j k : nat),
    @getAllocInformation lowering_by_name inlined_tensor consumer_loops ∅ false
    = Some info /\
    (j <= k <= length consumer_loops)%nat /\
    init_for_loop info = last (take k consumer_loops) /\
    alloc_for_loop info = last (take j consumer_loops) /\
    0 <= alloc_pos info <= Z.of_nat k.
Proof.
  assert (Hca : 0 <= getComputeAtPosition inlined_tensor < 2 ^ 63)
    by (simpl; lia).
  split; [exact Hca|].
  destruct (@getAllocInformation lowering_by_name inlined_tensor
              consumer_loops ∅ false) as [info |] eqn:Hget;
    [|vm_compute in Hget; discriminate Hget].
  exists info.
  destruct (@getAllocInformation_loops lowering_by_name inlined_tensor
              consumer_loops ∅ false info Hca Hget) as (j & k & Hjk).
  exists j, k. split; [reflexivity | exact Hjk].
Defined.

Lemma getAllocInformation_global_witness :
  getMemoryType global_tensor = Global /\
  exists info : BasicAllocInfo,
    @getAllocInformation lowering_by_name global_tensor consumer_loops ∅ false
    = Some info /\
    alloc_for_loop info = None.
Proof.
  assert (Hg : getMemoryType global_tensor = Global) by reflexivity.
  split; [exact Hg|].
  destruct (@getAllocInformation lowering_by_name global_tensor
              consumer_loops ∅ false) as [info |] eqn:Hget;
    [|vm_compute in Hget; discriminate Hget].
  exists info. split; [reflexivity|].
  exact (@getAllocInformation_global lowering_by_name global_tensor
           consumer_loops ∅ false info Hg Hget).
Defined.

Lemma getAllocInformation_same_loop_witness :
  getMemoryType inlined_tensor <> Global /\
  (getMemoryType inlined_tensor = Shared ->
   Forall (fun fl => getParallelType (iter_domain fl) <> Unswitch)
          consumer_loops) /\
  isCircularBuffered inlined_tensor = false /\
  exists info : BasicAllocInfo,
    @getAllocInformation lowering_by_name inlined_tensor consumer_loops ∅ false
    = Some info /\
    alloc_for_loop info = init_for_loop info.
Proof.
  assert (Hg : getMemoryType inlined_tensor <> Global) by (simpl; discriminate).
  assert (Hs : getMemoryType inlined_tensor = Shared ->
               Forall (fun fl => getParallelType (iter_domain fl) <> Unswitch)
                      consumer_loops)
    by (simpl; discriminate).
  assert (Hc : isCircularBuffered inlined_tensor = false) by reflexivity.
  split; [exact Hg|]. split; [exact Hs|]. split; [exact Hc|].
  destruct (@getAllocInformation lowering_by_name inlined_tensor
              consumer_loops ∅ false) as [info |] eqn:Hget;
    [|vm_compute in Hget; discriminate Hget].
  exists info. split; [reflexivity|].
  exact (@getAllocInformation_same_loop lowering_by_name inlined_tensor
           consumer_loops ∅ false info Hg Hs Hc Hget).
Defined.

Lemma inlined_tensor_axes (pos : Z) :
  0 <= pos < getComputeAtPosition inlined_tensor ->
  is_Some (axis inlined_tensor pos).
Proof.
  cbn [getComputeAtPosition inlined_tensor]. intros Hpos.
  assert (Hcase : pos = 0 \/ pos = 1) by lia.
  destruct Hcase as [-> | ->]; eexists; vm_compute; reflexivity.
Qed.

Lemma getAllocInformation_returns_witness :
  0 <= getComputeAtPosition inlined_tensor < 2 ^ 63 /\
  is_Some (@getAllocInformation lowering_by_name inlined_tensor
             consumer_loops ∅ false).
Proof.
  assert (Hca : 0 <= getComputeAtPosition inlined_tensor < 2 ^ 63)
    by (simpl; lia).
  split; [exact Hca|].
  apply (@getAllocInformation_returns lowering_by_name inlined_tensor
           consumer_loops ∅ false Hca inlined_tensor_axes).
  intros pos ax Hpos Hax Hred. reflexivity.
Defined.

End LowerUtilsExtra.

Module AllocationExtra.
Import Utils LowerUtils Allocation.

Lemma last_take_lookup {A : Type} (l : list A) (k : nat) :
  (k < length l)%nat -> last (take (S k) l) = l !! k.
Proof.
  revert l. induction k as [| k IH]; intros l Hk.
  - destruct l as [| x l]; [cbn in Hk; lia | reflexivity].
  - destruct l as [| x l]; [cbn in Hk; lia|].
    cbn [length] in Hk. rewrite LowerUtilsExtra.last_take_S.
    rewrite IH by lia. cbn [lookup list_lookup].
    destruct (l !! k) eqn:Hl; [reflexivity|].
    apply lookup_ge_None in Hl. lia.
Qed.

Lemma names_injective (fls : list ForLoop) (i j : nat) (a b : ForLoop) :
  NoDup (fl_name <$> fls) ->
  fls !! i = Some a -> fls !! j = Some b ->
  fl_name a = fl_name b -> i = j.
Proof.
  intros Hnd Ha Hb Heq.
  apply (NoDup_lookup (fl_name <$> fls) i j (fl_name a) Hnd).
  - rewrite list_lookup_fmap, Ha. reflexivity.
  - rewrite list_lookup_fmap, Hb, Heq. reflexivity.
Qed.

Lemma next_fl_lookup (fls : list ForLoop) (i : nat) (fl : ForLoop) :
  NoDup (fl_name <$> fls) -> fls !! i = Some fl ->
  next_fl fl fls = fls !! S i.
Proof.
  revert i. induction fls as [| x rest IH]; intros i Hnd Hi; [discriminate|].
  cbn [next_fl ptr_eq].
  destruct i as [| i].
  - injection Hi as ->. rewrite bool_decide_eq_true_2 by reflexivity.
    destruct rest; reflexivity.
  - cbn [lookup list_lookup] in Hi.
    rewrite bool_decide_eq_false_2.
    + apply IH; [|exact Hi]. rewrite fmap_cons in Hnd.
      apply NoDup_cons in Hnd. apply Hnd.
    + intros Hname.
      pose proof (names_injective (x :: rest) (S i) 0 fl x Hnd Hi eq_refl Hname).
      discriminate.
Qed.

Lemma back_iff (fls : list ForLoop) (i : nat) (fl : ForLoop) :
  NoDup (fl_name <$> fls) -> fls !! i = Some fl ->
  ptr_eq (Some fl) (last fls) = true <-> S i = length fls.
Proof.
  intros Hnd Hi.
  pose proof (lookup_lt_Some _ _ _ Hi) as Hlt.
  rewrite last_lookup.
  destruct (fls !! pred (length fls)) as [b |] eqn:Hb.
  - cbn [ptr_eq]. rewrite bool_decide_eq_true. split.
    + intros Hname.
      pose proof (names_injective fls i _ fl b Hnd Hi Hb Hname). lia.
    + intros Hlen. replace (pred (length fls)) with i in Hb by lia.
      congruence.
  - apply lookup_ge_None in Hb. lia.
Qed.

Lemma outermost_place_at (fls : list ForLoop) :
  outermost_place fls = place_at fls 0.
Proof. destruct fls; reflexivity. Qed.

(** The place after the loop at depth [k - 1]. *)
Lemma place_after (fls : list ForLoop) (k : nat) (fl : ForLoop) :
  NoDup (fl_name <$> fls) -> fls !! k = Some fl ->
  (if ptr_eq (Some fl) (last fls) then Some BeforeExpr
   else BeforeLoop <$> next_fl fl fls)
  = Some (place_at fls (S k)).
Proof.
  intros Hnd Hk. pose proof (back_iff fls k fl Hnd Hk) as Hback.
  pose proof (lookup_lt_Some _ _ _ Hk) as Hlt.
  unfold place_at.
  destruct (ptr_eq (Some fl) (last fls)).
  - rewrite (proj2 (lookup_ge_None fls (S k))); [reflexivity|].
    pose proof (proj1 Hback eq_refl). lia.
  - rewrite (next_fl_lookup fls k fl Hnd Hk).
    destruct (fls !! S k) as [y |] eqn:Hy; [reflexivity|].
    apply lookup_ge_None in Hy.
    assert (S k = length fls) by lia.
    apply Hback in H. discriminate.
Qed.

Section WithGpuLower.
Context `{GpuLower}.

(** X24: inside loops that are pairwise distinct, the allocation pass
    raises no error of its own: whenever [getAllocInformation] returns,
    [fillAllocationInformation] does, keeping the allocation position.  The
    initialization is placed in front of the loop that follows the [k]
    loops passed and the allocation in front of the loop that follows the
    first [j <= k] of them, and in front of the expression itself where no
    loop follows. *)
Theorem fillAllocationInformation_places (id_map : gmap nat IterDomain)
    (use_id_map : bool) (buffer : TensorView) (for_loops : list ForLoop)
    (loop_alloc_info : BasicAllocInfo) :
  NoDup (fl_name <$> for_loops) ->
  getAllocInformation buffer for_loops id_map use_id_map
  = Some loop_alloc_info ->
  exists (info : AllocationInformation) (j k : nat),
    fillAllocationInformation id_map use_id_map buffer for_loops = Some info /\
    (j <= k <= length for_loops)%nat /\
    ai_alloc_pos info = alloc_pos loop_alloc_info /\
    ai_init_for_loop info = last (take k for_loops) /\
    ai_init_place_before info = place_at for_loops k /\
    ai_alloc_for_loop info = last (take j for_loops) /\
    ai_alloc_place_before info = place_at for_loops j.
Proof.
  intros Hnd Hget. unfold fillAllocationInformation. rewrite Hget.
  cbn [mbind option_bind].
  apply LowerUtilsExtra.alloc_loop_shape
    in Hget as (j & k & Hjk & Hinit & Halloc & _ & _).
  cbn [init_for_loop alloc_for_loop] in Hinit, Halloc.
  assert (Hi : init_for_loop loop_alloc_info = last (take k for_loops))
    by (rewrite Hinit; destruct (last (take k for_loops)); reflexivity).
  assert (Ha : alloc_for_loop loop_alloc_info = last (take j for_loops))
    by (rewrite Halloc; destruct (last (take j for_loops)); reflexivity).
  clear Hinit Halloc.
  destruct k as [| k].
  - assert (j = 0%nat) by lia. subst j.
    cbn [take last] in Hi, Ha. rewrite Hi, Ha. cbn.
    eexists _, 0%nat, 0%nat. split; [reflexivity|].
    cbn. rewrite outermost_place_at. repeat split; lia.
  - rewrite last_take_lookup in Hi by lia.
    destruct (for_loops !! k) as [fl |] eqn:Hk;
      [|apply lookup_ge_None in Hk; lia].
    rewrite Hi. rewrite (place_after for_loops k fl Hnd Hk).
    cbn [mbind option_bind].
    destruct j as [| j].
    + cbn [take last] in Ha. rewrite Ha. cbn [ptr_eq mbind option_bind].
      eexists _, 0%nat, (S k). split; [reflexivity|].
      cbn [ai_alloc_pos ai_init_for_loop ai_init_place_before
           ai_alloc_for_loop ai_alloc_place_before take last].
      rewrite outermost_place_at, last_take_lookup, Hk by lia.
      repeat split; lia.
    + rewrite last_take_lookup in Ha by lia.
      destruct (for_loops !! j) as [fa |] eqn:Hj;
        [|apply lookup_ge_None in Hj; lia].
      rewrite Ha.
      destruct (ptr_eq (Some fa) (Some fl)) eqn:Hsame.
      * cbn [ptr_eq] in Hsame. apply bool_decide_eq_true in Hsame.
        pose proof (names_injective for_loops j k fa fl Hnd Hj Hk Hsame).
        subst j. cbn [mbind option_bind].
        eexists _, (S k), (S k). split; [reflexivity|].
        cbn [ai_alloc_pos ai_init_for_loop ai_init_place_before
             ai_alloc_for_loop ai_alloc_place_before].
        rewrite last_take_lookup, Hk by lia.
        repeat split; lia.
      * assert (Hjk' : j <> k).
        { intros ->. rewrite Hj in Hk. injection Hk as ->.
          cbn [ptr_eq] in Hsame.
          rewrite bool_decide_eq_true_2 in Hsame by reflexivity.
          discriminate. }
        pose proof (place_after for_loops j fa Hnd Hj) as Hplace.
        pose proof (back_iff for_loops j fa Hnd Hj) as Hback.
        destruct (ptr_eq (Some fa) (last for_loops)).
        { pose proof (proj1 Hback eq_refl). lia. }
        rewrite Hplace. cbn [mbind option_bind].
        eexists _, (S j), (S k). split; [reflexivity|].
        cbn [ai_alloc_pos ai_init_for_loop ai_init_place_before
             ai_alloc_for_loop ai_alloc_place_before].
        rewrite !last_take_lookup, Hk, Hj by lia.
        repeat split; lia.
Qed.

End WithGpuLower.

Lemma fillAllocationInformation_places_witness :
  NoDup (fl_name <$> consumer_loops) /\
  exists (info : AllocationInformation) (j k : nat),
    @fillAllocationInformation lowering_by_name ∅ false inlined_tensor
      consumer_loops = Some info /\
    (j <= k <= length consumer_loops)%nat /\
    ai_init_place_before info = place_at consumer_loops k /\
    ai_alloc_place_before info = place_at consumer_loops j.
Proof.
  assert (Hnd : NoDup (fl_name <$> consumer_loops)).
  { cbn. repeat (apply NoDup_cons; split;
                 [rewrite ?elem_of_cons, elem_of_nil; intuition discriminate|]).
    apply NoDup_nil. exact I. }
  split; [exact Hnd|].
  destruct (@getAllocInformation lowering_by_name inlined_tensor
              consumer_loops ∅ false) as [lai |] eqn:Hget;
    [|vm_compute in Hget; discriminate Hget].
  destruct (@fillAllocationInformation_places lowering_by_name ∅ false
              inlined_tensor consumer_loops lai Hnd Hget)
    as (info & j & k & Hfill & Hjk & _ & _ & Hip & _ & Hap).
  exists info, j, k. repeat split; try assumption; apply Hjk.
Defined.

End AllocationExtra.

Module IrUtilsExtra.
Import IrUtils.

Lemma first_tv_head (vals : list Val) : first_tv vals = head (getTvs vals).
Proof.
  induction vals as [| val rest IH]; [reflexivity|].
  cbn [first_tv getTvs]. destruct (getTv val); [reflexivity | exact IH].
Qed.

(** X25: [getTvOutput] and [getTvInput] return the first of the tensors
    [getTvs] collects from the outputs and from the inputs, tensor indices
    counting through their views, and null exactly when it collects none. *)
Theorem getTvOutput_first (expr : Expr) :
  getTvOutput expr = head (getTvs (outputs expr)) /\
  getTvInput expr = head (getTvs (inputs expr)) /\
  (getTvOutput expr = None <-> getTvs (outputs expr) = []) /\
  (getTvInput expr = None <-> getTvs (inputs expr) = []).
Proof.
  unfold getTvOutput, getTvInput. rewrite !first_tv_head.
  repeat split; try (intros ->; reflexivity).
  - destruct (getTvs (outputs expr)); [reflexivity | discriminate].
  - destruct (getTvs (inputs expr)); [reflexivity | discriminate].
Qed.

Lemma parallel_domains_loop_lookup (loop : list IterDomain)
    (m : gmap ParallelType IterDomain) (pt : ParallelType) :
  parallel_domains_loop loop m !! pt
  = match m !! pt with
    | Some d => Some d
    | None =>
        snd <$> list_find
                  (fun d => isThread d = true /\ getParallelType d = pt) loop
    end.
Proof.
  revert m. induction loop as [| d rest IH]; intros m.
  - cbn. destruct (m !! pt); reflexivity.
  - cbn [parallel_domains_loop list_find]. rewrite IH. clear IH.
    destruct (decide (isThread d = true /\ getParallelType d = pt))
      as [(Hth & Hpt) | Hnot].
    + rewrite Hth, Hpt.
      destruct (m !! pt) as [d0 |] eqn:Hm.
      * rewrite Hm. reflexivity.
      * rewrite <- Hpt, lookup_insert. rewrite decide_True by reflexivity.
        reflexivity.
    + assert (Hkeep : (if isThread d
                       then match m !! getParallelType d with
                            | Some _ => m
                            | None => <[getParallelType d := d]> m
                            end
                       else m) !! pt = m !! pt).
      { destruct (isThread d) eqn:Hth; [|reflexivity].
        destruct (m !! getParallelType d); [reflexivity|].
        apply lookup_insert_ne. intros Hpt. apply Hnot. split; [reflexivity|].
        exact Hpt. }
      rewrite Hkeep. destruct (m !! pt); [reflexivity|].
      destruct (list_find _ rest) as [[i x] |]; reflexivity.
Qed.

(** X26: the map [getParallelDomains] returns sends a parallel type to the
    first thread-parallel domain of that type in the loop domain of the
    tensor (of the view, for a tensor index): later domains of the same
    type never replace it, and a domain that is no thread domain is never
    entered. *)
Theorem getParallelDomains_first (val : Val)
    (m : gmap ParallelType IterDomain) :
  getParallelDomains val = Some m ->
  exists tv : TensorView,
    getTv val = Some tv /\
    forall (pt : ParallelType) (d : IterDomain),
      m !! pt = Some d <->
      exists i : nat,
        getLoopDomain tv !! i = Some d /\
        isThread d = true /\ getParallelType d = pt /\
        forall (j : nat) (d' : IterDomain),
          (j < i)%nat -> getLoopDomain tv !! j = Some d' ->
          isThread d' = true -> getParallelType d' <> pt.
Proof.
  intros Hget.
  assert (Htv : exists tv, getTv val = Some tv /\
                           m = parallel_domains_loop (getLoopDomain tv) ∅).
  { destruct val as [tv | tv |]; [| |discriminate];
      injection Hget as <-; exists tv; split; reflexivity. }
  destruct Htv as (tv & Htv & ->). exists tv. split; [exact Htv|].
  intros pt d. rewrite parallel_domains_loop_lookup, lookup_empty.
  split.
  - intros Hfind.
    destruct (list_find _ (getLoopDomain tv)) as [[i x] |] eqn:Hlf;
      [|discriminate].
    injection Hfind as ->.
    apply list_find_Some in Hlf as (Hi & (Hth & Hpt) & Hbefore).
    exists i. repeat split; try assumption.
    intros j d' Hj Hd' Hth' Hpt'. exact (Hbefore j d' Hd' Hj (conj Hth' Hpt')).
  - intros (i & Hi & Hth & Hpt & Hbefore).
    assert (Hlf : list_find
                    (fun d => isThread d = true /\ getParallelType d = pt)
                    (getLoopDomain tv) = Some (i, d)).
    { apply list_find_Some. split; [exact Hi|]. split; [split; assumption|].
      intros j d' Hd' Hj (Hth' & Hpt'). exact (Hbefore j d' Hj Hd' Hth' Hpt'). }
    rewrite Hlf. reflexivity.
Qed.

Lemma getParallelDomains_first_witness :
  exists (m : gmap ParallelType IterDomain) (tv : TensorView),
    getParallelDomains (TensorIndexVal warp_reduced) = Some m /\
    getTv (TensorIndexVal warp_reduced) = Some tv /\
    forall (pt : ParallelType) (d : IterDomain),
      m !! pt = Some d <->
      exists i : nat,
        getLoopDomain tv !! i = Some d /\
        isThread d = true /\ getParallelType d = pt /\
        forall (j : nat) (d' : IterDomain),
          (j < i)%nat -> getLoopDomain tv !! j = Some d' ->
          isThread d' = true -> getParallelType d' <> pt.
Proof.
  destruct (getParallelDomains (TensorIndexVal warp_reduced)) as [m |] eqn:Hget;
    [|discriminate Hget].
  destruct (getParallelDomains_first _ m Hget) as (tv & Htv & Hspec).
  exists m, tv. split; [reflexivity|]. split; [exact Htv | exact Hspec].
Defined.

Lemma warp_reduction_loop_spec (loop : list IterDomain)
    (r0 r : option IterDomain) :
  warp_reduction_loop loop r0 = Some r ->
  Forall (fun d => isReduction d = true -> isParallelized d = true ->
                   isThread d = true ->
                   getParallelType d = LowerUtils.TIDx) loop /\
  ((r = r0 /\ Forall (fun d => ~ tidx_reduction d) loop) \/
   exists (pre post : list IterDomain) (id : IterDomain),
     r = Some id /\ loop = pre ++ id :: post /\ tidx_reduction id /\
     Forall (fun d => ~ tidx_reduction d) post).
Proof.
  revert r0. induction loop as [| d rest IH]; intros r0 Hloop;
    cbn [warp_reduction_loop] in Hloop.
  - injection Hloop as <-. split; [constructor|]. left. split; [reflexivity|].
    constructor.
  - destruct (isReduction d) eqn:Hr; destruct (isParallelized d) eqn:Hp;
      cbn [andb] in Hloop.
    1: destruct (bool_decide (getParallelType d = LowerUtils.TIDx)) eqn:Hx;
       [apply bool_decide_eq_true in Hx
       | apply bool_decide_eq_false in Hx;
         destruct (isThread d) eqn:Ht; [discriminate|]].
    all: apply IH in Hloop as (Hall & Hcase).
    all: split; [constructor; [intros; congruence | exact Hall]|].
    + destruct Hcase as [(-> & Hnone) | (pre & post & id & -> & -> & Hid & Hpost)].
      * right. exists [], rest, d. repeat split; assumption.
      * right. exists (d :: pre), post, id. repeat split; try assumption;
          apply Hid.
    + destruct Hcase as [(-> & Hnone) | (pre & post & id & -> & -> & Hid & Hpost)].
      * left. split; [reflexivity|]. constructor; [|exact Hnone].
        intros (_ & _ & Hx'). contradiction.
      * right. exists (d :: pre), post, id. repeat split; try assumption;
          apply Hid.
    + destruct Hcase as [(-> & Hnone) | (pre & post & id & -> & -> & Hid & Hpost)].
      * left. split; [reflexivity|]. constructor; [|exact Hnone].
        intros (_ & Hp' & _). congruence.
      * right. exists (d :: pre), post, id. repeat split; try assumption;
          apply Hid.
    + destruct Hcase as [(-> & Hnone) | (pre & post & id & -> & -> & Hid & Hpost)].
      * left. split; [reflexivity|]. constructor; [|exact Hnone].
        intros (Hr' & _). congruence.
      * right. exists (d :: pre), post, id. repeat split; try assumption;
          apply Hid.
    + destruct Hcase as [(-> & Hnone) | (pre & post & id & -> & -> & Hid & Hpost)].
      * left. split; [reflexivity|]. constructor; [|exact Hnone].
        intros (Hr' & _). congruence.
      * right. exists (d :: pre), post, id. repeat split; try assumption;
          apply Hid.
Qed.

(** X27: a warp reduction dimension is only reported for a reduction into
    registers from registers.  The domain returned is the last reduction
    domain bound to [threadIdx.x] in the loop domain of the output; it
    starts at zero and is padded to a multiple of the warp size or has a
    constant extent that the warp size divides; and no reduction domain of
    the output is bound to another thread dimension. *)
Theorem getMaybeWarpReductionDim_sound (warp_size : Z) (output input : Val)
    (id : IterDomain) :
  getMaybeWarpReductionDim warp_size output input = Some (Some id) ->
  exists (tv_out tv_in : TensorView) (pre post : list IterDomain),
    getTv output = Some tv_out /\ getTv input = Some tv_in /\
    getMemoryType tv_out = LowerUtils.Local /\
    getMemoryType tv_in = LowerUtils.Local /\
    getLoopDomain tv_out = pre ++ id :: post /\
    tidx_reduction id /\
    Forall (fun d => ~ tidx_reduction d) post /\
    Forall (fun d => isReduction d = true -> isParallelized d = true ->
                     isThread d = true ->
                     getParallelType d = LowerUtils.TIDx)
           (getLoopDomain tv_out) /\
    start_isZeroInt id = true /\
    (hasPaddingToMultipleOfWarp id = true \/
     exists v : Z, extent_value id = Some v /\ Z.rem v warp_size = 0).
Proof.
  unfold getMaybeWarpReductionDim.
  destruct (getTv output) as [tv_out |]; [|discriminate].
  destruct (getTv input) as [tv_in |]; cbn [mbind option_bind]; [|discriminate].
  destruct (bool_decide (getMemoryType tv_in = LowerUtils.Local)) eqn:Hin;
    cbn [negb orb]; [|discriminate].
  destruct (bool_decide (getMemoryType tv_out = LowerUtils.Local)) eqn:Hout;
    cbn [negb]; [|discriminate].
  apply bool_decide_eq_true in Hin, Hout.
  destruct (warp_reduction_loop (getLoopDomain tv_out) None) as [[x |] |] eqn:Hloop;
    [|discriminate | discriminate].
  apply warp_reduction_loop_spec in Hloop as (Hall & Hcase).
  destruct Hcase as [(Hx & _) | (pre & post & x' & Hx & Hsplit & Hred & Hpost)];
    [discriminate|].
  injection Hx as <-.
  destruct (start_isZeroInt x) eqn:Hstart; cbn [negb]; [|discriminate].
  intros Hres.
  assert (Hid : x = id /\
                (hasPaddingToMultipleOfWarp x = true \/
                 exists v : Z, extent_value x = Some v /\ Z.rem v warp_size = 0)).
  { destruct (hasPaddingToMultipleOfWarp x).
    - injection Hres as <-. split; [reflexivity | left; reflexivity].
    - destruct (extent_value x) as [v |]; [|discriminate].
      destruct (Z.eqb_spec (Z.rem v warp_size) 0) as [Hrem |]; [|discriminate].
      injection Hres as <-. split; [reflexivity|]. right. exists v.
      split; [reflexivity | exact Hrem]. }
  destruct Hid as (<- & Hext).
  exists tv_out, tv_in, pre, post. repeat split; try assumption; apply Hred.
Qed.

Lemma getMaybeWarpReductionDim_sound_witness :
  exists id : IterDomain,
    getMaybeWarpReductionDim 32 (TensorViewVal warp_reduced)
      (TensorIndexVal warp_reduced) = Some (Some id) /\
    id_name id = 2%nat /\
    exists (tv_out tv_in : TensorView) (pre post : list IterDomain),
      getTv (TensorViewVal warp_reduced) = Some tv_out /\
      getTv (TensorIndexVal warp_reduced) = Some tv_in /\
      getMemoryType tv_out = LowerUtils.Local /\
      getMemoryType tv_in = LowerUtils.Local /\
      getLoopDomain tv_out = pre ++ id :: post /\
      tidx_reduction id /\
      Forall (fun d => ~ tidx_reduction d) post /\
      Forall (fun d => isReduction d = true -> isParallelized d = true ->
                       isThread d = true ->
                       getParallelType d = LowerUtils.TIDx)
             (getLoopDomain tv_out) /\
      start_isZeroInt id = true /\
      (hasPaddingToMultipleOfWarp id = true \/
       exists v : Z, extent_value id = Some v /\ Z.rem v 32 = 0).
Proof.
  eexists. split; [vm_compute; reflexivity|]. split; [reflexivity|].
  apply (getMaybeWarpReductionDim_sound 32 (TensorViewVal warp_reduced)
           (TensorIndexVal warp_reduced)).
  vm_compute. reflexivity.
Defined.

End IrUtilsExtra.
